(** * PageRank calculator: a shallow embedding of [pagerank.py]

    The development follows the Python source function by function:
    [crawl], [transition_model], [sample_pagerank], [iterate_pagerank]
    and [main].

    - Python dictionaries keep their insertion order, and that order is
      what [iterate_pagerank] walks when it updates ranks in place, so a
      dictionary is an association list whose keys are distinct.
    - Python floats are read as exact rationals ([Q], kept in lowest
      terms), and the literals [0.85] and [0.001] are [17/20] and
      [1/1000]: a statement about these definitions is a statement of
      exact arithmetic. Where the rounding of the code decides the
      matter, the module [Binary64] redoes the same lines with binary64
      numbers, and the statements about it say so in their names.
    - The file system is what [os.listdir] and [open(...).read()] give:
      a listing or an exception, and for each entry its contents or an
      exception.
    - Exceptions are values of an error monad; the [while True] loop of
      [iterate_pagerank] runs on fuel, and [None] means that the fuel ran
      out before the loop reached its [break].
    - The two random generators are an explicit sequence of uniform
      variates handed to [sample_pagerank]; [random.choice] and
      [numpy.random.choice] are modelled after the libraries, down to
      the exceptions they raise on an empty list or on weights that are
      not a distribution. *)

From Stdlib Require Import List Ascii String ZArith QArith Qabs Qround Lia Bool.
From Stdlib Require Import Permutation Sorted Lqa.
From Stdlib Require PrimFloat FloatOps SpecFloat Uint63.
Import ListNotations.
Local Open Scope Q_scope.

(** ** Exceptions *)

Inductive exn : Type :=
| KeyError
| IndexError
| ZeroDivisionError
| ValueError
| OSError
| UnicodeDecodeError.

Inductive result (A : Type) : Type :=
| Ok (a : A)
| Raise (e : exn).

Arguments Ok {A} a.
Arguments Raise {A} e.

Definition bind {A B : Type} (m : result A) (k : A -> result B) : result B :=
  match m with
  | Ok a => k a
  | Raise e => Raise e
  end.

Notation "x <- m ;; k" := (bind m (fun x => k))
  (at level 61, m at next level, right associativity).
Notation "' pat <- m ;; k" := (bind m (fun x => match x with pat => k end))
  (at level 61, pat pattern, m at next level, right associativity).

(** [for x in xs: s = body x s], stopping at the first exception. *)
Fixpoint for_in {A S : Type} (xs : list A) (body : A -> S -> result S) (s : S)
  : result S :=
  match xs with
  | [] => Ok s
  | x :: xs' => s' <- body x s ;; for_in xs' body s'
  end.

(** ** Numbers *)

Module Num.

Abbreviation num := Q (only parsing).

Definition of_nat (n : nat) : num := inject_Z (Z.of_nat n).

Definition add (x y : num) : num := Qred (x + y).
Definition sub (x y : num) : num := Qred (x - y).
Definition mul (x y : num) : num := Qred (x * y).
Definition abs (x : num) : num := Qred (Qabs x).

  (** [x / y]: Python raises on a zero divisor. *)
Definition truediv (x y : num) : result num :=
    if Qeq_bool y 0 then Raise ZeroDivisionError else Ok (Qred (x / y)).

Definition ltb (x y : num) : bool := negb (Qle_bool y x).
Definition gtb (x y : num) : bool := ltb y x.

Definition sum (xs : list num) : num := fold_left Qplus xs 0.

End Num.

Import Num.

(** ** Dictionaries *)

Module Dict.
Section Dict.
Context {V : Type}.

Definition dict : Type := list (string * V).

Definition keys (d : dict) : list string := map fst d.
Definition values (d : dict) : list V := map snd d.
Definition len (d : dict) : nat := List.length d.

  (** [d[k]] *)
Fixpoint getitem (d : dict) (k : string) : result V :=
    match d with
    | [] => Raise KeyError
    | (k', v) :: d' => if String.eqb k k' then Ok v else getitem d' k
    end.

  (** [d[k] = v]: an existing key keeps its place, a new key goes last. *)
Fixpoint setitem (d : dict) (k : string) (v : V) : dict :=
    match d with
    | [] => [(k, v)]
    | (k', v') :: d' =>
        if String.eqb k k' then (k', v) :: d' else (k', v') :: setitem d' k v
    end.

End Dict.
Arguments dict V : clear implicits.
End Dict.

Import Dict.

(** ** The graph *)

(** The value stored under a page is the [set] built by [crawl], or,
    once [iterate_pagerank] has rewritten a dangling page, the live
    [corpus.keys()] view of the very dictionary that holds it. *)
Inductive links : Type :=
| PySet (l : list string)
| KeysView.

Definition corpus : Type := dict links.

Definition mem (x : string) (l : list string) : bool :=
  existsb (String.eqb x) l.

(** [len(v)], [x in v] and [for x in v], for a value [v] stored in [c]. *)
Definition links_len (c : corpus) (v : links) : nat :=
  match v with
  | PySet l => List.length l
  | KeysView => len c
  end.

Definition links_contains (c : corpus) (v : links) (x : string) : bool :=
  match v with
  | PySet l => mem x l
  | KeysView => mem x (keys c)
  end.

Definition links_iter (c : corpus) (v : links) : list string :=
  match v with
  | PySet l => l
  | KeysView => keys c
  end.

(** ** [transition_model] *)

Definition transition_model (c : corpus) (page : string) (damping_factor : num)
  : result (dict num) :=
  lnk <- getitem c page ;;
  let anti := sub 1 damping_factor in
  probability <-
    for_in (keys c)
      (fun i probability =>
         x <- truediv anti (of_nat (len c)) ;;
         Ok (setitem probability i x))
      [] ;;
  if Nat.eqb (links_len c lnk) 0 then
    for_in (keys c)
      (fun i probability =>
         x <- truediv 1 (of_nat (len c)) ;;
         Ok (setitem probability i x))
      probability
  else
    for_in (links_iter c lnk)
      (fun link probability =>
         old <- getitem probability link ;;
         inc <- truediv damping_factor (of_nat (links_len c lnk)) ;;
         Ok (setitem probability link (add old inc)))
      probability.

(** ** Random choices *)

(** The generators' uniform variates in [0,1): the fractional part of
    whatever rational the sequence holds. *)
Definition frac (u : Q) : Q := u - inject_Z (Qfloor u).

Definition nth_or_IndexError {A : Type} (l : list A) (i : nat) : result A :=
  match nth_error l i with
  | Some x => Ok x
  | None => Raise IndexError
  end.

(** [random.choice(seq)]: [seq[randbelow(len(seq))]]. *)
Definition random_choice (u : Q) (seq : list string) : result string :=
  nth_or_IndexError seq
    (Z.to_nat (Qfloor (frac u * of_nat (List.length seq)))).

(** Index of the first cumulative sum that exceeds [u]. *)
Fixpoint searchsorted (p : list num) (acc : num) (u : Q) : nat :=
  match p with
  | [] => 0%nat
  | x :: p' =>
      if Qle_bool (acc + x) u then S (searchsorted p' (acc + x) u) else 0%nat
  end.

(** [numpy.random.choice(a, p=p)]: the weights are validated (same
    length as [a], none negative, sum 1), then the variate is located in
    their cumulative sums. *)
Definition numpy_choice (u : Q) (a : list string) (p : list num)
  : result string :=
  if Nat.eqb (List.length a) 0 then Raise ValueError
  else if negb (Nat.eqb (List.length a) (List.length p)) then Raise ValueError
  else if existsb (fun x => ltb x 0) p then Raise ValueError
  else if negb (Qeq_bool (sum p) 1) then Raise ValueError
  else nth_or_IndexError a (searchsorted p 0 (frac u)).

(** ** [sample_pagerank] *)

Definition count (samples : list string) (page : string) : nat :=
  count_occ string_dec samples page.

(** The visit record [samples] once the sampling loop is over: variate
    [U 0] draws the first page, variate [U (i+1)] the [i]-th transition. *)
Definition sample_walk (U : nat -> Q) (c : corpus) (damping_factor : num)
  (n : Z) : result (list string) :=
  first <- random_choice (U 0%nat) (keys c) ;;
  for_in (seq 0 (Z.to_nat n))
    (fun i samples =>
       cur <- nth_or_IndexError samples i ;;
       probability <- transition_model c cur damping_factor ;;
       nextPage <- numpy_choice (U (S i)) (keys probability)
                     (values probability) ;;
       Ok (samples ++ [nextPage]))
    [first].

Definition sample_pagerank (U : nat -> Q) (c : corpus) (damping_factor : num)
  (n : Z) : result (dict num) :=
  samples <- sample_walk U c damping_factor n ;;
  for_in (keys c)
    (fun page pageRank =>
       x <- truediv (of_nat (count samples page))
              (of_nat (List.length samples)) ;;
       Ok (setitem pageRank page x))
    [].

(** What the last loop stores for a non-empty visit record. *)
Definition visit_ratios (samples : list string) (ks : list string) : dict num :=
  map (fun k => (k, Qred (of_nat (count samples k)
                          / of_nat (List.length samples)))) ks.

(** ** [iterate_pagerank] *)

Definition threshold : num := 1 # 1000.

(** Body of [for link in corpus.keys()]: the state is the caller's
    dictionary together with [sumAlg]. *)
Definition inner_body (page : string) (pageRank : dict num) (link : string)
  (st : corpus * num) : result (corpus * num) :=
  let '(c, sumAlg) := st in
  l <- getitem c link ;;
  let c := if Nat.eqb (links_len c l) 0 then setitem c link KeysView else c in
  l <- getitem c link ;;
  if links_contains c l page then
    r <- getitem pageRank link ;;
    l <- getitem c link ;;
    iterative <- truediv r (of_nat (links_len c l)) ;;
    Ok (c, add sumAlg iterative)
  else Ok (c, sumAlg).

(** Body of [for page in pageRank]: [pageRank] is updated in place. *)
Definition update_page (algConst d : num) (page : string)
  (st : corpus * dict num) : result (corpus * dict num) :=
  let '(c, pageRank) := st in
  ' (c', sumAlg) <- for_in (keys c) (inner_body page pageRank) (c, 0) ;;
  Ok (c', setitem pageRank page (add algConst (mul d sumAlg))).

Definition one_pass (algConst d : num) (st : corpus * dict num)
  : result (corpus * dict num) :=
  for_in (keys (snd st)) (update_page algConst d) st.

Definition max_change_of (prevRank pageRank : dict num) : result num :=
  for_in (keys pageRank)
    (fun page max_change =>
       a <- getitem prevRank page ;;
       b <- getitem pageRank page ;;
       if gtb (abs (sub a b)) max_change
       then Ok (abs (sub a b))
       else Ok max_change)
    (- (10000 # 1)).

(** [while True]: one unit of fuel per pass. *)
Fixpoint while_true (fuel : nat) (algConst d : num) (c : corpus)
  (pageRank : dict num) : option (result (corpus * dict num)) :=
  match fuel with
  | O => None
  | S fuel' =>
      let prevRank := pageRank in
      match one_pass algConst d (c, pageRank) with
      | Raise e => Some (Raise e)
      | Ok (c', pageRank') =>
          match max_change_of prevRank pageRank' with
          | Raise e => Some (Raise e)
          | Ok max_change =>
              if ltb max_change threshold
              then Some (Ok (c', pageRank'))
              else while_true fuel' algConst d c' pageRank'
          end
      end
  end.

(** Everything before the loop: the uniform start vector and [algConst]. *)
Definition iterate_init (c : corpus) (d : num) : result (dict num * num) :=
  pageRank <-
    for_in (keys c)
      (fun page pageRank =>
         x <- truediv 1 (of_nat (len c)) ;;
         Ok (setitem pageRank page x))
      [] ;;
  algConst <- truediv (sub 1 d) (of_nat (len c)) ;;
  Ok (pageRank, algConst).

(** The result pairs the caller's dictionary, as the call leaves it, with
    the returned [pageRank]. *)
Definition iterate_pagerank (fuel : nat) (c : corpus) (damping_factor : num)
  : option (result (corpus * dict num)) :=
  match iterate_init c damping_factor with
  | Raise e => Some (Raise e)
  | Ok (pageRank, algConst) =>
      while_true fuel algConst damping_factor c pageRank
  end.

(** ** The same lines in binary64 *)

(** The definitions above compute with exact rationals. The numbers of
    the code are Python's [int] and [float], IEEE 754 binary64 with
    rounding to nearest even; the module below embeds, with the
    primitive binary64 numbers, the lines whose result depends on the
    rounding: the quotients of lines 101-102 and the loop of lines
    115-144. An [int] operand is converted to [float] first, exactly
    for the integers at hand. *)
Module Binary64.
Import PrimFloat.

Abbreviation float := PrimFloat.float (only parsing).

Definition of_int (n : nat) : float := of_uint63 (Uint63.of_Z (Z.of_nat n)).

(** [x / y]: Python raises on a zero divisor. *)
Definition truediv (x y : float) : result float :=
  if eqb y 0%float then Raise ZeroDivisionError else Ok (x / y)%float.

Definition gtb (x y : float) : bool := ltb y x.

(** The rational a finite binary64 number stands for. *)
Definition value (x : float) : option Q :=
  match FloatOps.Prim2SF x with
  | SpecFloat.S754_zero _ => Some 0
  | SpecFloat.S754_finite s m e =>
      Some (inject_Z (if s then Z.neg m else Z.pos m) * Qpower 2 e)
  | _ => None
  end.

(** The sum of finite binary64 numbers, without rounding and with the
    rounding of one addition after the other. *)
Fixpoint exact_sum (xs : list float) : option Q :=
  match xs with
  | [] => Some 0
  | x :: xs' =>
      match value x, exact_sum xs' with
      | Some v, Some s => Some (Qred (v + s))
      | _, _ => None
      end
  end.

Definition float_sum (xs : list float) : float :=
  fold_left add xs 0%float.

(** Lines 101-102: the ranks stored for the visit record [samples]. *)
Definition visit_ratios (samples : list string) (c : corpus)
  : result (dict float) :=
  for_in (keys c)
    (fun page pageRank =>
       x <- truediv (of_int (count samples page))
              (of_int (List.length samples)) ;;
       Ok (setitem pageRank page x))
    [].

(** Lines 61-78. *)
Definition transition_model (c : corpus) (page : string)
  (damping_factor : float) : result (dict float) :=
  lnk <- getitem c page ;;
  let anti := (1 - damping_factor)%float in
  probability <-
    for_in (keys c)
      (fun i probability =>
         x <- truediv anti (of_int (len c)) ;;
         Ok (setitem probability i x))
      [] ;;
  if Nat.eqb (links_len c lnk) 0 then
    for_in (keys c)
      (fun i probability =>
         x <- truediv 1%float (of_int (len c)) ;;
         Ok (setitem probability i x))
      probability
  else
    for_in (links_iter c lnk)
      (fun link probability =>
         old <- getitem probability link ;;
         inc <- truediv damping_factor (of_int (links_len c lnk)) ;;
         Ok (setitem probability link (old + inc)%float))
      probability.

(** Lines 115-144. The threshold is the binary64 number the literal
    0.001 denotes. *)
Definition threshold : float := 0x1.0624dd2f1a9fcp-10%float.

Definition inner_body (page : string) (pageRank : dict float) (link : string)
  (st : corpus * float) : result (corpus * float) :=
  let '(c, sumAlg) := st in
  l <- getitem c link ;;
  let c := if Nat.eqb (links_len c l) 0 then setitem c link KeysView else c in
  l <- getitem c link ;;
  if links_contains c l page then
    r <- getitem pageRank link ;;
    l <- getitem c link ;;
    iterative <- truediv r (of_int (links_len c l)) ;;
    Ok (c, (sumAlg + iterative)%float)
  else Ok (c, sumAlg).

Definition update_page (algConst d : float) (page : string)
  (st : corpus * dict float) : result (corpus * dict float) :=
  let '(c, pageRank) := st in
  ' (c', sumAlg) <- for_in (keys c) (inner_body page pageRank) (c, 0%float) ;;
  Ok (c', setitem pageRank page (algConst + d * sumAlg)%float).

Definition one_pass (algConst d : float) (st : corpus * dict float)
  : result (corpus * dict float) :=
  for_in (keys (snd st)) (update_page algConst d) st.

Definition max_change_of (prevRank pageRank : dict float) : result float :=
  for_in (keys pageRank)
    (fun page max_change =>
       a <- getitem prevRank page ;;
       b <- getitem pageRank page ;;
       if gtb (abs (a - b)) max_change
       then Ok (abs (a - b))
       else Ok max_change)
    (- 10000)%float.

Fixpoint while_true (fuel : nat) (algConst d : float) (c : corpus)
  (pageRank : dict float) : option (result (corpus * dict float)) :=
  match fuel with
  | O => None
  | S fuel' =>
      let prevRank := pageRank in
      match one_pass algConst d (c, pageRank) with
      | Raise e => Some (Raise e)
      | Ok (c', pageRank') =>
          match max_change_of prevRank pageRank' with
          | Raise e => Some (Raise e)
          | Ok max_change =>
              if ltb max_change threshold
              then Some (Ok (c', pageRank'))
              else while_true fuel' algConst d c' pageRank'
          end
      end
  end.

Definition iterate_init (c : corpus) (d : float)
  : result (dict float * float) :=
  pageRank <-
    for_in (keys c)
      (fun page pageRank =>
         x <- truediv 1%float (of_int (len c)) ;;
         Ok (setitem pageRank page x))
      [] ;;
  algConst <- truediv (1 - d)%float (of_int (len c)) ;;
  Ok (pageRank, algConst).

Definition iterate_pagerank (fuel : nat) (c : corpus) (damping_factor : float)
  : option (result (corpus * dict float)) :=
  match iterate_init c damping_factor with
  | Raise e => Some (Raise e)
  | Ok (pageRank, algConst) =>
      while_true fuel algConst damping_factor c pageRank
  end.

(** The largest binary64 number below 1, [1 - 2^-53], which Python
    prints as 0.9999999999999999. *)
Definition below_one : float := 0x1.fffffffffffffp-1%float.

Definition one : float := 1%float.
Definition quarter : float := 0x1p-2%float.

(** The binary64 numbers the literals 0.85 and 0.2 denote, and the one
    just below the latter. *)
Definition DAMPING : float := 0x1.b333333333333p-1%float.
Definition fifth : float := 0x1.999999999999ap-3%float.
Definition below_fifth : float := 0x1.9999999999999p-3%float.

(** [2^-55], the teleport share [(1 - below_one) / 4]. *)
Definition tiny : float := 0x1p-55%float.

(** The two rank vectors between which [corpus_cycle] alternates in
    binary64 when the damping factor is [below_one]. *)
Definition cycle_low : dict float :=
  [("C"%string, 0x1p-2%float); ("B"%string, 0x1p-1%float);
   ("A"%string, 0x1p-2%float); ("D"%string, 0x1p-55%float)].

Definition cycle_high : dict float :=
  [("C"%string, 0x1p-1%float); ("B"%string, 0x1p-2%float);
   ("A"%string, 0x1p-1%float); ("D"%string, 0x1p-55%float)].

End Binary64.

(** ** Well-formed graphs *)

(** What [crawl] guarantees and the dictionary type gives: distinct
    keys, and every link a page of the corpus. *)
Definition links_ok (c : corpus) (v : links) : Prop :=
  incl (links_iter c v) (keys c).

Definition Graph_wf (c : corpus) : Prop :=
  NoDup (keys c) /\ Forall (fun kv => links_ok c (snd kv)) c.

(** ** Reading a pass of [iterate_pagerank] *)

Definition rank_of (pageRank : dict num) (q : string) : num :=
  match getitem pageRank q with
  | Ok x => x
  | Raise _ => 0
  end.

(** The effective outbound set: a dangling page links to every page. *)
Definition effective (c : corpus) (v : links) : list string :=
  if Nat.eqb (links_len c v) 0 then keys c else links_iter c v.

(** Sum, over the pages [q] whose effective outbound set contains [p],
    of [rank q / |effective-outbound q|]; [share] adds the term of one
    entry [kv] of the graph. *)
Definition share (c : corpus) (rank : string -> Q) (p : string) (acc : Q)
  (kv : string * links) : Q :=
  if mem p (effective c (snd kv))
  then acc + rank (fst kv) / of_nat (List.length (effective c (snd kv)))
  else acc.

Definition incoming (c : corpus) (rank : string -> Q) (p : string) : Q :=
  fold_left (share c rank p) c 0.

(** The update as the specification words it, from one rank vector. *)
Definition simultaneous_rank (c : corpus) (d : Q) (prev : dict num)
  (p : string) : Q :=
  (1 - d) / of_nat (len c) + d * incoming c (rank_of prev) p.

(** The vector an in-place pass reads when it reaches the page that
    follows [done]: new ranks for the pages of [done], old ones elsewhere. *)
Definition in_place_view (done : list string) (prev new : dict num)
  (q : string) : Q :=
  if mem q done then rank_of new q else rank_of prev q.

(** What a pass leaves under a page of the caller's dictionary, and the
    dictionary it leaves. *)
Definition neutralised (c : corpus) (v : links) : links :=
  if Nat.eqb (links_len c v) 0 then KeysView else v.

Definition neutralise_in (c : corpus) (l : list (string * links))
  : list (string * links) :=
  map (fun kv => (fst kv, neutralised c (snd kv))) l.

Definition neutralise (c : corpus) : corpus := neutralise_in c c.

(** ** Reading the loop of [iterate_pagerank] *)

Fixpoint run_passes (k : nat) (algConst d : num) (st : corpus * dict num)
  : result (corpus * dict num) :=
  match k with
  | O => Ok st
  | S k' => st' <- one_pass algConst d st ;; run_passes k' algConst d st'
  end.



(** ** Reading the convergence of [iterate_pagerank] *)








(** ** Sample graphs *)

(** Two pages, the second one dangling. *)
Definition corpus_dangling : corpus :=
  [("A"%string, PySet ["B"%string]); ("B"%string, PySet [])].

(** A two-cycle with a third page pointing into it. *)
Definition corpus_tail : corpus :=
  [("A"%string, PySet ["B"%string]); ("B"%string, PySet ["A"%string]);
   ("C"%string, PySet ["A"%string])].

(** A three-cycle listed against its direction, entered from a fourth
    page. *)
Definition corpus_cycle : corpus :=
  [("C"%string, PySet ["A"%string]); ("B"%string, PySet ["C"%string]);
   ("A"%string, PySet ["B"%string]); ("D"%string, PySet ["A"%string])].

Definition corpus_single : corpus := [("A"%string, PySet [])].

(** Five pages, one of them dangling. *)
Definition corpus_five : corpus :=
  [("A"%string, PySet ["B"%string]); ("B"%string, PySet []);
   ("C"%string, PySet ["A"%string]); ("D"%string, PySet ["A"%string]);
   ("E"%string, PySet ["A"%string])].

(** The two rank vectors between which [corpus_cycle] alternates when
    the damping factor is 1. *)
Definition cycle_low : dict num :=
  [("C"%string, 1 # 4); ("B"%string, 1 # 2); ("A"%string, 1 # 4);
   ("D"%string, 0)].

Definition cycle_high : dict num :=
  [("C"%string, 1 # 2); ("B"%string, 1 # 4); ("A"%string, 1 # 2);
   ("D"%string, 0)].

(** A reproducible sequence of variates. *)
Definition variates (i : nat) : Q := Z.of_nat i * 37 # 100.

(** Variates under which the walk on [corpus_tail] visits A, B, B, B, B
    and C. *)
Definition variates_abbbbc (i : nat) : Q :=
  nth i [0; 1 # 2; 23 # 25; 23 # 25; 23 # 25; 97 # 100] 0.

(** ** [crawl] *)

(** [s.endswith(suffix)] *)
Definition endswith (s suffix : string) : bool :=
  let n := String.length s in
  let m := String.length suffix in
  if Nat.leb m n then String.eqb (substring (n - m) m s) suffix else false.

Definition is_html (filename : string) : bool := endswith filename ".html".

(** What [open(...).read()] gives for an entry of a directory: its
    contents, or the exception raised when the entry cannot be opened
    ([OSError]: a directory, a file without read permission, a name that
    has vanished) or decoded ([UnicodeDecodeError]). *)
Definition file : Type := result string.

(** An entry that [crawl] can read if it has to. *)
Definition readable_html (entry : string * file) : Prop :=
  is_html (fst entry) = true -> exists contents, snd entry = Ok contents.

(** The [.html] entries of a listing with their contents, or what the
    first of them that cannot be read raises. *)
Fixpoint html_files (listing : list (string * file))
  : result (list (string * string)) :=
  match listing with
  | [] => Ok []
  | (filename, f) :: rest =>
      if is_html filename then
        contents <- f ;;
        files <- html_files rest ;;
        Ok ((filename, contents) :: files)
      else html_files rest
  end.

Section Crawl.

(** [re.findall(pattern, contents)] for the anchor pattern of [crawl]:
    the [href] targets the pattern finds in a file, in the order it
    finds them. *)
Variable findall : string -> list string.

(** [set(links) - {filename}] *)
Definition links_of (filename contents : string) : list string :=
  remove string_dec filename (nodup string_dec (findall contents)).

(** [set(link for link in pages[filename] if link in pages)] *)
Definition links_in_corpus (pages : corpus) (v : links) : list string :=
  nodup string_dec (filter (fun link => mem link (keys pages))
                      (links_iter pages v)).

(** A directory is what [os.listdir] gives for it: the exception it
    raises ([OSError] stands for its subclasses too, such as
    [FileNotFoundError] and [NotADirectoryError]), or the names in the
    order it lists them, each with what [open(...).read()] gives for
    that entry, see [file]. An entry is opened only if its name ends in
    [.html], and nothing catches what the opening or the reading
    raises. *)
Definition crawl (directory : result (list (string * file))) : result corpus :=
  listing <- directory ;;
  pages <-
    for_in listing
      (fun entry pages =>
         let '(filename, f) := entry in
         if negb (is_html filename) then Ok pages
         else
           contents <- f ;;
           Ok (setitem pages filename (PySet (links_of filename contents))))
      [] ;;
  for_in (keys pages)
    (fun filename pages =>
       v <- getitem pages filename ;;
       Ok (setitem pages filename (PySet (links_in_corpus pages v))))
    pages.

(** What the first loop stores for a file, and what the second loop
    makes of an entry. *)
Definition read_entry (entry : string * string) : string * links :=
  (fst entry, PySet (links_of (fst entry) (snd entry))).

Definition keep_links (pages : corpus) (kv : string * links) : string * links :=
  (fst kv, PySet (links_in_corpus pages (snd kv))).

End Crawl.

(** ** [main] *)

Definition DAMPING : num := 17 # 20.
Definition SAMPLES : Z := 100000.

(** [sorted(ranks)]: the keys in ascending order. *)
Fixpoint insert_sorted (x : string) (l : list string) : list string :=
  match l with
  | [] => [x]
  | y :: l' => if String.leb x y then x :: l else y :: insert_sorted x l'
  end.

Definition sorted (l : list string) : list string :=
  fold_right insert_sorted [] l.

(** How a run of the program ends, with the lines printed so far. *)
Inductive outcome : Type :=
| SystemExit (message : string)
| Uncaught (e : exn) (stdout : list string)
| Looping (stdout : list string)
| Finished (stdout : list string).

Section Main.

Variable findall : string -> list string.

(** [os.listdir] and [open(...).read()] on the directory of that name. *)
Variable read_directory : string -> result (list (string * file)).

(** The text of a rank under the format [.4f]. *)
Variable format_4f : num -> string.

Definition rank_line (page : string) (x : num) : string :=
  ("  " ++ page ++ ": " ++ format_4f x)%string.

(** [for page in sorted(ranks): print(...)] *)
Fixpoint print_ranks (ranks : dict num) (pages : list string)
  (stdout : list string) : list string * option exn :=
  match pages with
  | [] => (stdout, None)
  | page :: pages' =>
      match getitem ranks page with
      | Raise e => (stdout, Some e)
      | Ok x => print_ranks ranks pages' (stdout ++ [rank_line page x])
      end
  end.

Definition main (argv : list string) (U : nat -> Q) (fuel : nat) : outcome :=
  if negb (Nat.eqb (List.length argv) 2)
  then SystemExit "Usage: python pagerank.py corpus"
  else
    match nth_or_IndexError argv 1 with
    | Raise e => Uncaught e []
    | Ok path =>
        match crawl findall (read_directory path) with
        | Raise e => Uncaught e []
        | Ok corpus =>
            match sample_pagerank U corpus DAMPING SAMPLES with
            | Raise e => Uncaught e []
            | Ok ranks =>
                let stdout :=
                  ["PageRank Results from Sampling (n = 100000)"%string] in
                match print_ranks ranks (sorted (keys ranks)) stdout with
                | (stdout, Some e) => Uncaught e stdout
                | (stdout, None) =>
                    match iterate_pagerank fuel corpus DAMPING with
                    | None => Looping stdout
                    | Some (Raise e) => Uncaught e stdout
                    | Some (Ok (_, ranks)) =>
                        let stdout :=
                          stdout
                          ++ ["PageRank Results from Iteration"%string] in
                        match print_ranks ranks (sorted (keys ranks)) stdout
                        with
                        | (stdout, Some e) => Uncaught e stdout
                        | (stdout, None) => Finished stdout
                        end
                    end
                end
            end
        end
    end.

End Main.

(** A tokenizer to run [crawl] on: the targets are the words of the
    file, separated by single spaces. *)
Fixpoint words_from (acc : string) (s : string) : list string :=
  match s with
  | EmptyString => match acc with EmptyString => [] | _ => [acc] end
  | String ch s' =>
      if Ascii.eqb ch " "%char
      then match acc with
           | EmptyString => words_from EmptyString s'
           | _ => acc :: words_from EmptyString s'
           end
      else words_from (acc ++ String ch EmptyString)%string s'
  end.

Definition words (s : string) : list string := words_from EmptyString s.

Definition sample_directory : list (string * file) :=
  [("1.html"%string, Ok "2.html 3.html 1.html 2.html"%string);
   ("logo.png"%string, Raise UnicodeDecodeError);
   ("2.html"%string, Ok "3.html missing.html"%string);
   ("3.html"%string, Ok ""%string)].

(** A directory with an entry that cannot be decoded but is never
    opened, and a subdirectory whose name ends in [.html]. *)
Definition sample_directory_unreadable : list (string * file) :=
  [("1.html"%string, Ok "2.html archive.html"%string);
   ("logo.png"%string, Raise UnicodeDecodeError);
   ("archive.html"%string, Raise OSError);
   ("2.html"%string, Ok "1.html"%string)].

(** * Loops *)

#[local] Arguments Qred : simpl never.
#[local] Arguments Qplus : simpl never.
#[local] Arguments Qminus : simpl never.
#[local] Arguments Qmult : simpl never.
#[local] Arguments Qdiv : simpl never.
#[local] Arguments Qinv : simpl never.
#[local] Arguments Qabs : simpl never.
#[local] Arguments of_nat : simpl never.

Section ForIn.
Context {A S : Type}.
Implicit Types (xs : list A) (body : A -> S -> result S).

  (** The invariant rule: [P done s] relates the state to the part of the
      list already walked. *)
Lemma for_in_invariant (P : list A -> S -> Prop) xs body s0 :
    P [] s0 ->
    (forall done x rest s,
        xs = done ++ x :: rest -> P done s ->
        exists s', body x s = Ok s' /\ P (done ++ [x]) s') ->
    exists s', for_in xs body s0 = Ok s' /\ P xs s'.
  Proof.
    intros H0 Hstep.
    assert (G : forall rest done s,
               xs = done ++ rest -> P done s ->
               exists s', for_in rest body s = Ok s' /\ P xs s').
    { induction rest as [|x rest IH]; intros done s E HP.
      - rewrite app_nil_r in E; subst done. exists s; split; auto.
      - destruct (Hstep done x rest s E HP) as (s1 & Hb & HP1).
        simpl; rewrite Hb; simpl.
        apply (IH (done ++ [x])); auto.
        rewrite <- app_assoc; exact E. }
    apply (G xs [] s0); auto.
  Qed.

  (** An exception that no iteration raises is not raised by the loop. *)
Lemma for_in_never (e : exn) xs body s :
    (forall x s', In x xs -> body x s' <> Raise e) ->
    for_in xs body s <> Raise e.
  Proof.
    revert s; induction xs as [|x xs IH]; intros s Hb; simpl; [discriminate|].
    destruct (body x s) as [s1|e1] eqn:E; simpl.
    - apply IH; intros; apply Hb; right; assumption.
    - intros Heq; inversion Heq; subst e1.
      apply (Hb x s); [left; reflexivity | exact E].
  Qed.

End ForIn.

(** * Arithmetic *)

Lemma add_spec x y : add x y == x + y.
Proof. apply Qred_correct. Qed.

Lemma sub_spec x y : sub x y == x - y.
Proof. apply Qred_correct. Qed.

Lemma mul_spec x y : mul x y == x * y.
Proof. apply Qred_correct. Qed.

Lemma abs_spec x : abs x == Qabs x.
Proof. apply Qred_correct. Qed.

Lemma of_nat_nonzero n : n <> 0%nat -> ~ of_nat n == 0.
Proof.
  intros Hn H; unfold of_nat, Qeq in H; simpl in H; lia.
Qed.

Lemma of_nat_pos n : n <> 0%nat -> 0 < of_nat n.
Proof.
  intros Hn; unfold of_nat, Qlt; simpl; lia.
Qed.

Lemma truediv_ok x y : ~ y == 0 -> truediv x y = Ok (Qred (x / y)).
Proof.
  intros Hy; unfold truediv.
  destruct (Qeq_bool y 0) eqn:E; [|reflexivity].
  apply Qeq_bool_eq in E; contradiction.
Qed.

Lemma ltb_lt x y : ltb x y = true <-> x < y.
Proof.
  unfold ltb; rewrite negb_true_iff.
  destruct (Qle_bool y x) eqn:E.
  - apply Qle_bool_iff in E; split; [discriminate|].
    intros H; exfalso; apply (Qlt_not_le _ _ H E).
  - split; [intros _|reflexivity].
    apply Qnot_le_lt; intros H; apply Qle_bool_iff in H; congruence.
Qed.

Lemma sum_from xs a : fold_left Qplus xs a == a + sum xs.
Proof.
  unfold sum; revert a; induction xs as [|x xs IH]; intros a; simpl.
  - ring.
  - rewrite (IH (a + x)), (IH (0 + x)); ring.
Qed.

Lemma sum_cons x xs : sum (x :: xs) == x + sum xs.
Proof.
  unfold sum at 1; simpl; rewrite sum_from; ring.
Qed.

(** * Dictionaries *)

Section DictFacts.
Context {V : Type}.
Implicit Types (d : dict V) (k : string) (v : V).

Lemma mem_In k (l : list string) : mem k l = true <-> In k l.
  Proof.
    unfold mem; rewrite existsb_exists; split.
    - intros (x & Hx & E); apply String.eqb_eq in E; subst; assumption.
    - intros H; exists k; split; [assumption | apply String.eqb_refl].
  Qed.

Lemma getitem_In d k : In k (keys d) -> exists v, getitem d k = Ok v.
  Proof.
    induction d as [|[k' v'] d IH]; simpl; [tauto|].
    intros [E|H].
    - subst k'; rewrite String.eqb_refl; eauto.
    - destruct (String.eqb k k'); eauto.
  Qed.

Lemma getitem_Ok_In d k v : getitem d k = Ok v -> In k (keys d).
  Proof.
    induction d as [|[k' v'] d IH]; simpl; [discriminate|].
    destruct (String.eqb k k') eqn:E.
    - apply String.eqb_eq in E; subst; auto.
    - auto.
  Qed.

Lemma getitem_raises d k e : getitem d k = Raise e -> e = KeyError.
  Proof.
    induction d as [|[k' v'] d IH]; simpl.
    - congruence.
    - destruct (String.eqb k k'); [discriminate | assumption].
  Qed.

Lemma keys_setitem d k v : In k (keys d) -> keys (setitem d k v) = keys d.
  Proof.
    induction d as [|[k' v'] d IH]; simpl; [tauto|].
    intros H; destruct (String.eqb k k') eqn:E; simpl; [reflexivity|].
    f_equal; apply IH; destruct H as [H|H]; [|assumption].
    subst; rewrite String.eqb_refl in E; discriminate.
  Qed.

Lemma getitem_setitem_same d k v : getitem (setitem d k v) k = Ok v.
  Proof.
    induction d as [|[k' v'] d IH]; simpl.
    - rewrite String.eqb_refl; reflexivity.
    - destruct (String.eqb k k') eqn:E; simpl; rewrite E; auto.
  Qed.

Lemma getitem_setitem_other d k k' v :
    k <> k' -> getitem (setitem d k v) k' = getitem d k'.
  Proof.
    intros Hne; induction d as [|[k0 v0] d IH]; simpl.
    - destruct (String.eqb k' k) eqn:E; [|reflexivity].
      apply String.eqb_eq in E; congruence.
    - destruct (String.eqb k k0) eqn:E; simpl.
      + apply String.eqb_eq in E; subst k0.
        destruct (String.eqb k' k) eqn:E'; [|reflexivity].
        apply String.eqb_eq in E'; congruence.
      + rewrite IH; reflexivity.
  Qed.

  (** Writing under a key that the front part lacks happens behind it. *)
Lemma setitem_app d1 d2 k v :
    ~ In k (keys d1) -> setitem (d1 ++ d2) k v = d1 ++ setitem d2 k v.
  Proof.
    induction d1 as [|[k' v'] d1 IH]; simpl; [reflexivity|].
    intros H; destruct (String.eqb k k') eqn:E.
    - apply String.eqb_eq in E; subst; tauto.
    - f_equal; apply IH; tauto.
  Qed.

Lemma getitem_app d1 d2 k :
    ~ In k (keys d1) -> getitem (d1 ++ d2) k = getitem d2 k.
  Proof.
    induction d1 as [|[k' v'] d1 IH]; simpl; [reflexivity|].
    intros H; destruct (String.eqb k k') eqn:E.
    - apply String.eqb_eq in E; subst; tauto.
    - apply IH; tauto.
  Qed.

End DictFacts.

Lemma sum_values_setitem (d : dict num) k old v :
  getitem d k = Ok old ->
  sum (values (setitem d k v)) == sum (values d) - old + v.
Proof.
  induction d as [|[k' v'] d IH]; simpl; [discriminate|].
  destruct (String.eqb k k') eqn:E; simpl.
  - intros H; inversion H; subst; rewrite !sum_cons; ring.
  - intros H; rewrite !sum_cons, (IH H); ring.
Qed.

Lemma keys_const {V : Type} (x : V) (ks : list string) :
  keys (map (fun k => (k, x)) ks) = ks.
Proof.
  unfold keys; rewrite map_map; simpl; apply map_id.
Qed.

Lemma keys_app {V : Type} (d1 d2 : dict V) :
  keys (d1 ++ d2) = keys d1 ++ keys d2.
Proof. apply map_app. Qed.

(** A loop that stores one value under keys not yet present appends them
    in order. *)
Lemma for_in_fill (m : result Q) (x : Q) ks (p0 : dict Q) :
  m = Ok x ->
  NoDup (keys p0 ++ ks) ->
  for_in ks (fun i pr => y <- m ;; Ok (setitem pr i y)) p0
  = Ok (p0 ++ map (fun k => (k, x)) ks).
Proof.
  intros ->; revert p0; induction ks as [|k ks IH]; intros p0 Hnd; simpl.
  - rewrite app_nil_r; reflexivity.
  - assert (Hk : ~ In k (keys p0)).
    { apply NoDup_remove_2 in Hnd; intros H; apply Hnd, in_or_app; auto. }
    rewrite <- (app_nil_r p0) at 1.
    rewrite (setitem_app p0 [] k x Hk); simpl.
    rewrite IH.
    + rewrite <- app_assoc; reflexivity.
    + rewrite keys_app, <- app_assoc; exact Hnd.
Qed.

(** A loop that stores one value under every key overwrites in place. *)
Lemma for_in_overwrite (m : result Q) (x : Q) (p1 p2 : dict Q) :
  m = Ok x ->
  NoDup (keys (p1 ++ p2)) ->
  for_in (keys p2) (fun i pr => y <- m ;; Ok (setitem pr i y)) (p1 ++ p2)
  = Ok (p1 ++ map (fun kv => (fst kv, x)) p2).
Proof.
  intros ->; revert p1; induction p2 as [|[k v] p2 IH]; intros p1 Hnd; simpl.
  - reflexivity.
  - assert (Hk : ~ In k (keys p1)).
    { rewrite keys_app in Hnd; simpl in Hnd.
      apply NoDup_remove_2 in Hnd; intros H; apply Hnd, in_or_app; auto. }
    rewrite (setitem_app p1 ((k, v) :: p2) k x Hk); simpl.
    rewrite String.eqb_refl.
    change (p1 ++ (k, x) :: p2) with (p1 ++ [(k, x)] ++ p2).
    rewrite app_assoc, IH.
    + rewrite <- app_assoc; reflexivity.
    + rewrite <- app_assoc; simpl.
      rewrite keys_app in *; simpl in *; exact Hnd.
Qed.

Lemma of_nat_S n : of_nat (S n) == 1 + of_nat n.
Proof.
  unfold of_nat; rewrite Nat2Z.inj_succ, <- Z.add_1_l, inject_Z_plus.
  reflexivity.
Qed.

Lemma sum_const (x : Q) (ks : list string) :
  sum (values (map (fun k => (k, x)) ks)) == of_nat (List.length ks) * x.
Proof.
  induction ks as [|k ks IH]; simpl.
  - unfold sum, of_nat; simpl; ring.
  - rewrite sum_cons, IH.
    rewrite (of_nat_S (List.length ks)); ring.
Qed.

Lemma len_keys {V : Type} (d : dict V) : List.length (keys d) = len d.
Proof. apply length_map. Qed.

Lemma In_keys_nonempty {V : Type} (d : dict V) k : In k (keys d) -> len d <> 0%nat.
Proof. destruct d; simpl; [tauto | discriminate]. Qed.

(** ** [transition_model] *)

(** The distribution before the dangling test: [(1-d)/N] everywhere. *)
Lemma transition_model_unfold (c : corpus) page d lnk :
  NoDup (keys c) ->
  getitem c page = Ok lnk ->
  let base := map (fun k => (k, Qred (sub 1 d / of_nat (len c)))) (keys c) in
  transition_model c page d =
  if Nat.eqb (links_len c lnk) 0
  then Ok (map (fun k => (k, Qred (1 / of_nat (len c)))) (keys c))
  else for_in (links_iter c lnk)
         (fun link probability =>
            old <- getitem probability link ;;
            inc <- truediv d (of_nat (links_len c lnk)) ;;
            Ok (setitem probability link (add old inc)))
         base.
Proof.
  intros Hnd Hget base.
  assert (HN : ~ of_nat (len c) == 0).
  { apply of_nat_nonzero, (In_keys_nonempty c page), (getitem_Ok_In _ _ _ Hget). }
  unfold transition_model; rewrite Hget; simpl.
  rewrite (for_in_fill _ _ (keys c) [] (truediv_ok (sub 1 d) _ HN)) by exact Hnd.
  simpl; fold base.
  destruct (Nat.eqb (links_len c lnk) 0); [|reflexivity].
  assert (Hk : keys base = keys c) by apply keys_const.
  assert (Hnd' : NoDup (keys ([] ++ base))) by (simpl; rewrite Hk; exact Hnd).
  pose proof (for_in_overwrite _ _ [] base (truediv_ok 1 _ HN) Hnd') as H.
  rewrite Hk in H; simpl in H; rewrite H.
  unfold base; rewrite map_map; reflexivity.
Qed.

Lemma bind_never {A B : Type} (e : exn) (m : result A) (k : A -> result B) :
  m <> Raise e ->
  (forall a, m = Ok a -> k a <> Raise e) ->
  bind m k <> Raise e.
Proof.
  intros Hm Hk; destruct m as [a|e']; simpl.
  - apply Hk; reflexivity.
  - intros H; apply Hm; inversion H; reflexivity.
Qed.

Lemma getitem_no_zero_division {V : Type} (d : dict V) k :
  getitem d k <> Raise ZeroDivisionError.
Proof.
  intros H; apply getitem_raises in H; discriminate.
Qed.

Lemma truediv_no_zero_division x y :
  ~ y == 0 -> truediv x y <> Raise ZeroDivisionError.
Proof.
  intros Hy; rewrite (truediv_ok x y Hy); discriminate.
Qed.

Lemma store_no_zero_division (x N : Q) ks (p : dict Q) :
  ~ N == 0 ->
  for_in ks
    (fun i probability => y <- truediv x N ;; Ok (setitem probability i y)) p
  <> Raise ZeroDivisionError.
Proof.
  intros HN; apply for_in_never; intros i p' _.
  rewrite (truediv_ok x N HN); discriminate.
Qed.

Lemma links_len_iter c v : List.length (links_iter c v) = links_len c v.
Proof.
  destruct v; simpl; [reflexivity | apply len_keys].
Qed.

Lemma getitem_In_values {V : Type} (d : dict V) k v :
  getitem d k = Ok v -> In v (values d).
Proof.
  induction d as [|[k' v'] d IH]; simpl; [discriminate|].
  destruct (String.eqb k k'); [|auto].
  intros H; inversion H; auto.
Qed.

Lemma Forall_values_setitem {V : Type} (P : V -> Prop) (d : dict V) k v :
  Forall P (values d) -> P v -> Forall P (values (setitem d k v)).
Proof.
  intros Hd Hv; induction d as [|[k' v'] d IH]; simpl.
  - constructor; auto.
  - inversion Hd; subst.
    destruct (String.eqb k k'); simpl; constructor; auto.
Qed.

Lemma Graph_wf_links c page lnk :
  Graph_wf c -> getitem c page = Ok lnk -> incl (links_iter c lnk) (keys c).
Proof.
  intros [_ Hall] Hget.
  rewrite Forall_forall in Hall.
  assert (G : forall c0 : corpus,
             getitem c0 page = Ok lnk -> exists k, In (k, lnk) c0).
  { induction c0 as [|[k v] c0 IH]; simpl; [discriminate|].
    destruct (String.eqb page k).
    - intros H; inversion H; subst; eauto.
    - intros H; destruct (IH H) as (k' & Hk'); eauto. }
  destruct (G c Hget) as (k & Hk).
  apply (Hall (k, lnk) Hk).
Qed.

(** On a well-formed graph the result is a distribution over the pages:
    it is returned, has the graph's keys, sums to one, and is
    non-negative when the damping factor lies in [0,1]. *)
Lemma transition_model_distribution c page d :
  Graph_wf c -> In page (keys c) ->
  exists p,
    transition_model c page d = Ok p /\
    keys p = keys c /\
    sum (values p) == 1 /\
    (0 <= d <= 1 -> Forall (fun x => 0 <= x) (values p)).
Proof.
  intros Hwf Hin.
  destruct (getitem_In c page Hin) as (lnk & Hget).
  pose proof (In_keys_nonempty c page Hin) as Hlen.
  pose proof (of_nat_nonzero _ Hlen) as HN.
  pose proof (of_nat_pos _ Hlen) as HNpos.
  rewrite (transition_model_unfold c page d lnk (proj1 Hwf) Hget).
  destruct (Nat.eqb (links_len c lnk) 0) eqn:Edang.
  - eexists; split; [reflexivity|].
    split; [apply keys_const|].
    split.
    + rewrite sum_const, len_keys, Qred_correct; field; exact HN.
    + intros _; unfold values; rewrite map_map; simpl.
      apply Forall_forall; intros x Hx; apply in_map_iff in Hx.
      destruct Hx as (k & <- & _).
      rewrite Qred_correct.
      apply Qle_shift_div_l; [exact HNpos|].
      rewrite Qmult_0_l; discriminate.
  - apply Nat.eqb_neq in Edang.
    pose proof (of_nat_nonzero _ Edang) as HL.
    pose proof (of_nat_pos _ Edang) as HLpos.
    set (L := of_nat (links_len c lnk)) in *.
    destruct (for_in_invariant
                (fun done (p : dict Q) =>
                   keys p = keys c /\
                   sum (values p) == (1 - d) + of_nat (List.length done) * (d / L) /\
                   (0 <= d <= 1 -> Forall (fun x => 0 <= x) (values p)))
                (links_iter c lnk)
                (fun link probability =>
                   old <- getitem probability link ;;
                   inc <- truediv d L ;;
                   Ok (setitem probability link (add old inc)))
                (map (fun k => (k, Qred (sub 1 d / of_nat (len c)))) (keys c)))
      as (p & Hp & Hk & Hs & Hpos).
    + split; [apply keys_const|]; split.
      * rewrite sum_const, len_keys, Qred_correct, sub_spec.
        change (of_nat (List.length (@nil string))) with 0.
        field; split; assumption.
      * intros [Hd0 Hd1]; unfold values; rewrite map_map; simpl.
        apply Forall_forall; intros x Hx; apply in_map_iff in Hx.
        destruct Hx as (k & <- & _).
        rewrite Qred_correct, sub_spec.
        apply Qle_shift_div_l; [exact HNpos|].
        rewrite Qmult_0_l; apply (proj1 (Qle_minus_iff d 1) Hd1).
    + intros done x rest p E (Hk & Hs & Hpos).
      assert (Hx : In x (keys p)).
      { rewrite Hk; apply (Graph_wf_links c page lnk Hwf Hget).
        rewrite E; apply in_or_app; right; left; reflexivity. }
      destruct (getitem_In p x Hx) as (old & Hold).
      rewrite Hold; simpl.
      rewrite (truediv_ok d L HL); simpl.
      eexists; split; [reflexivity|].
      split; [rewrite keys_setitem; auto|]; split.
      * rewrite (sum_values_setitem p x old _ Hold), Hs, add_spec, Qred_correct.
        rewrite length_app; simpl.
        rewrite Nat.add_1_r, (of_nat_S (List.length done)); ring.
      * intros Hd; apply Forall_values_setitem; [auto|].
        rewrite add_spec, Qred_correct.
        assert (H0 : 0 <= old).
        { specialize (Hpos Hd); rewrite Forall_forall in Hpos.
          apply Hpos, (getitem_In_values p x old Hold). }
        assert (H1 : 0 <= d / L).
        { apply Qle_shift_div_l; [exact HLpos|].
          rewrite Qmult_0_l; apply Hd. }
        rewrite <- (Qplus_0_l 0); apply Qplus_le_compat; assumption.
    + exists p; split; [exact Hp|]; split; [exact Hk|]; split; [|exact Hpos].
      rewrite Hs, links_len_iter; fold L; field; exact HL.
Qed.

(** ** Well-formedness of the sample graphs *)

Ltac sample_nodup :=
  repeat (apply NoDup_cons || apply NoDup_nil); simpl; intuition discriminate.
Ltac sample_wf :=
  split;
  [ sample_nodup
  | repeat (apply Forall_cons || apply Forall_nil);
    unfold links_ok, incl; simpl; intuition ].

(** ** Claims about [transition_model] *)

(** C4. For a well-formed graph and any of its pages, [transition_model]
    returns a distribution whose values sum to 1 in exact arithmetic.
    The damping factor is arbitrary, so in particular any value of
    [0,1]; a graph that has a page is non-empty. *)
Theorem transition_model_sums_to_one (c : corpus) (page : string) (d : num) :
  Graph_wf c ->
  In page (keys c) ->
  exists p, transition_model c page d = Ok p /\ sum (values p) == 1.
Proof.
  intros Hwf Hin.
  destruct (transition_model_distribution c page d Hwf Hin)
    as (p & Hp & _ & Hs & _).
  exists p; split; assumption.
Qed.

Lemma transition_model_sums_to_one_witness :
  Graph_wf corpus_tail /\
  In "A"%string (keys corpus_tail) /\
  exists p,
    transition_model corpus_tail "A"%string (17 # 20) = Ok p /\
    sum (values p) == 1.
Proof.
  split; [sample_wf|].
  split; [simpl; auto|].
  apply transition_model_sums_to_one; [sample_wf | simpl; auto].
Defined.

(** C5. On a non-empty graph, for a page whose outbound set is empty,
    [transition_model] returns the uniform distribution: every page of
    the graph, in the graph's order, with one and the same value [x],
    and [x] is [1/N]. *)
Theorem transition_model_dangling_uniform (c : corpus) (page : string)
  (d : num) (lnk : links) :
  c <> [] ->
  NoDup (keys c) ->
  getitem c page = Ok lnk ->
  links_len c lnk = 0%nat ->
  exists x,
    x == 1 / of_nat (len c) /\
    transition_model c page d = Ok (map (fun k => (k, x)) (keys c)).
Proof.
  intros _ Hnd Hget Hlen.
  rewrite (transition_model_unfold c page d lnk Hnd Hget), Hlen; simpl.
  eexists; split; [apply Qred_correct | reflexivity].
Qed.

Lemma transition_model_dangling_uniform_witness :
  exists x,
    x == 1 / of_nat (len corpus_dangling) /\
    transition_model corpus_dangling "B"%string (17 # 20)
    = Ok (map (fun k => (k, x)) (keys corpus_dangling)).
Proof.
  apply (transition_model_dangling_uniform corpus_dangling "B"%string
           (17 # 20) (PySet [])).
  - discriminate.
  - sample_nodup.
  - reflexivity.
  - reflexivity.
Defined.

(** C9. On a non-empty graph, for a page that is a key of the graph,
    [transition_model] never raises [ZeroDivisionError]: every divisor
    it reaches, [len(corpus)] or [len(links)], is at least 1. *)
Theorem transition_model_no_zero_division (c : corpus) (page : string)
  (d : num) :
  c <> [] ->
  In page (keys c) ->
  transition_model c page d <> Raise ZeroDivisionError.
Proof.
  intros Hne Hin.
  pose proof (of_nat_nonzero _ (In_keys_nonempty c page Hin)) as HN.
  unfold transition_model.
  apply bind_never; [apply getitem_no_zero_division|].
  intros lnk _; simpl.
  apply bind_never; [apply store_no_zero_division; exact HN|].
  intros probability _.
  destruct (Nat.eqb (links_len c lnk) 0) eqn:E.
  - apply store_no_zero_division; exact HN.
  - apply Nat.eqb_neq in E.
    apply for_in_never; intros link p _.
    apply bind_never; [apply getitem_no_zero_division|].
    intros old _.
    apply bind_never; [|discriminate].
    apply truediv_no_zero_division, of_nat_nonzero; exact E.
Qed.

Lemma transition_model_no_zero_division_witness :
  corpus_tail <> [] /\
  In "C"%string (keys corpus_tail) /\
  transition_model corpus_tail "C"%string (17 # 20) <> Raise ZeroDivisionError.
Proof.
  split; [discriminate|].
  split; [simpl; auto|].
  apply transition_model_no_zero_division; [discriminate | simpl; auto].
Defined.

(** ** Random choices *)

Lemma frac_range u : 0 <= frac u /\ frac u < 1.
Proof.
  unfold frac; split.
  - apply (proj1 (Qle_minus_iff (inject_Z (Qfloor u)) u)), Qfloor_le.
  - pose proof (Qlt_floor u) as H.
    rewrite inject_Z_plus in H.
    apply (Qplus_lt_l _ _ (inject_Z (Qfloor u))).
    setoid_replace (u - inject_Z (Qfloor u) + inject_Z (Qfloor u)) with u by ring.
    rewrite Qplus_comm; exact H.
Qed.

Lemma nth_or_IndexError_In {A : Type} (l : list A) i :
  (i < List.length l)%nat ->
  exists x, nth_or_IndexError l i = Ok x /\ In x l.
Proof.
  intros Hi; unfold nth_or_IndexError.
  destruct (nth_error l i) as [x|] eqn:E.
  - exists x; split; [reflexivity | apply (nth_error_In l i E)].
  - apply nth_error_None in E; lia.
Qed.

(** [random.choice] on a non-empty list returns one of its elements. *)
Lemma random_choice_In u (l : list string) :
  l <> [] -> exists x, random_choice u l = Ok x /\ In x l.
Proof.
  intros Hl; unfold random_choice.
  apply nth_or_IndexError_In.
  assert (Hn : List.length l <> 0%nat) by (destruct l; [congruence | discriminate]).
  destruct (frac_range u) as [H0 H1].
  pose proof (of_nat_pos _ Hn) as Hpos.
  set (N := List.length l) in *.
  assert (Hlo : (0 <= Qfloor (frac u * of_nat N))%Z).
  { change 0%Z with (Qfloor 0); apply Qfloor_resp_le.
    apply Qmult_le_0_compat; [exact H0 | apply Qlt_le_weak; exact Hpos]. }
  assert (Hhi : (Qfloor (frac u * of_nat N) < Z.of_nat N)%Z).
  { rewrite Zlt_Qlt.
    apply Qle_lt_trans with (frac u * of_nat N); [apply Qfloor_le|].
    rewrite <- (Qmult_1_l (inject_Z (Z.of_nat N))).
    apply Qmult_lt_compat_r; assumption. }
  lia.
Qed.

Lemma random_choice_empty u : random_choice u [] = Raise IndexError.
Proof.
  unfold random_choice, nth_or_IndexError.
  destruct (Z.to_nat _); reflexivity.
Qed.

Lemma searchsorted_bound (p : list Q) acc u :
  p <> [] -> u < acc + sum p ->
  (searchsorted p acc u < List.length p)%nat.
Proof.
  revert acc; induction p as [|x p IH]; intros acc Hne Hu; [congruence|].
  simpl; destruct (Qle_bool (acc + x) u) eqn:E; [|lia].
  apply Qle_bool_iff in E.
  rewrite sum_cons in Hu.
  destruct p as [|y p].
  - exfalso; unfold sum in Hu; simpl in Hu.
    apply (Qlt_not_le _ _ Hu).
    setoid_replace (acc + (x + 0)) with (acc + x) by ring; exact E.
  - apply -> Nat.succ_lt_mono; apply IH; [discriminate|].
    setoid_replace (acc + x + sum (y :: p)) with (acc + (x + sum (y :: p)))
      by ring.
    exact Hu.
Qed.

(** [numpy.random.choice] accepts a distribution and returns one of the
    outcomes. *)
Lemma numpy_choice_In u (a : list string) (p : list Q) :
  a <> [] ->
  List.length a = List.length p ->
  Forall (fun x => 0 <= x) p ->
  sum p == 1 ->
  exists x, numpy_choice u a p = Ok x /\ In x a.
Proof.
  intros Ha Hlen Hpos Hsum; unfold numpy_choice.
  destruct (Nat.eqb (List.length a) 0) eqn:E0.
  { apply Nat.eqb_eq in E0; destruct a; [congruence | discriminate]. }
  rewrite (proj2 (Nat.eqb_eq _ _) Hlen); simpl.
  assert (Hneg : existsb (fun x => ltb x 0) p = false).
  { apply not_true_is_false; intros H.
    apply existsb_exists in H; destruct H as (x & Hx & Hlt).
    apply ltb_lt in Hlt; rewrite Forall_forall in Hpos.
    apply (Qlt_not_le _ _ Hlt), Hpos, Hx. }
  rewrite Hneg, (proj2 (Qeq_bool_iff _ _) Hsum); simpl.
  apply nth_or_IndexError_In.
  rewrite Hlen; apply searchsorted_bound.
  - intros ->; apply Nat.eqb_neq in E0; simpl in Hlen; congruence.
  - rewrite Hsum, Qplus_0_l; apply frac_range.
Qed.

(** ** [sample_pagerank] *)

Lemma seq_split_index m (done rest : list nat) x :
  seq 0 m = done ++ x :: rest -> x = List.length done.
Proof.
  intros E.
  assert (Hlen : (List.length done < m)%nat).
  { apply (f_equal (@List.length nat)) in E.
    rewrite length_seq, length_app in E; simpl in E; lia. }
  pose proof (@seq_nth m 0%nat (List.length done) 0%nat Hlen) as H.
  rewrite E, nth_middle in H; exact H.
Qed.

(** The sampling loop appends one page of the graph per iteration. *)
Lemma sample_walk_record U (c : corpus) d n :
  Graph_wf c -> c <> [] -> 0 <= d <= 1 ->
  exists samples,
    sample_walk U c d n = Ok samples /\
    List.length samples = S (Z.to_nat n) /\
    Forall (fun x => In x (keys c)) samples.
Proof.
  intros Hwf Hne Hd; unfold sample_walk.
  assert (Hk : keys c <> []) by (destruct c; [congruence | discriminate]).
  destruct (random_choice_In (U 0%nat) (keys c) Hk) as (first & -> & Hfirst).
  simpl.
  destruct (for_in_invariant
              (fun done samples =>
                 List.length samples = S (List.length done) /\
                 Forall (fun x => In x (keys c)) samples)
              (seq 0 (Z.to_nat n))
              (fun i samples =>
                 cur <- nth_or_IndexError samples i ;;
                 probability <- transition_model c cur d ;;
                 nextPage <- numpy_choice (U (S i)) (keys probability)
                               (values probability) ;;
                 Ok (samples ++ [nextPage]))
              [first]) as (samples & Hs & Hl & Hall).
  - split; [reflexivity | repeat constructor; exact Hfirst].
  - intros done i rest samples E (Hl & Hall).
    apply seq_split_index in E; subst i.
    destruct (nth_or_IndexError_In samples (List.length done))
      as (cur & Hc & Hcur); [lia|].
    rewrite Hc; cbn [bind].
    rewrite Forall_forall in Hall.
    destruct (transition_model_distribution c cur d Hwf (Hall cur Hcur))
      as (p & Hp & Hkp & Hsum & Hpos).
    rewrite Hp; cbn [bind].
    destruct (numpy_choice_In (U (S (List.length done))) (keys p) (values p))
      as (nxt & Hn & Hnxt); [ | | | | rewrite Hn; cbn [bind] ].
    + rewrite Hkp; exact Hk.
    + unfold keys, values; rewrite !length_map; reflexivity.
    + apply Hpos, Hd.
    + exact Hsum.
    + simpl; eexists; split; [reflexivity|]; split.
      * rewrite !length_app; simpl; lia.
      * apply Forall_app; split; [apply Forall_forall; exact Hall|].
        repeat constructor; rewrite <- Hkp; exact Hnxt.
  - exists samples; rewrite length_seq in Hl; auto.
Qed.

(** A loop that stores a value computed from the key, under keys not yet
    present, appends them in order. *)
Lemma for_in_fill_with (m : string -> result Q) (f : string -> Q) ks
  (p0 : dict Q) :
  (forall k, m k = Ok (f k)) ->
  NoDup (keys p0 ++ ks) ->
  for_in ks (fun i pr => y <- m i ;; Ok (setitem pr i y)) p0
  = Ok (p0 ++ map (fun k => (k, f k)) ks).
Proof.
  intros Hm; revert p0; induction ks as [|k ks IH]; intros p0 Hnd; simpl.
  - rewrite app_nil_r; reflexivity.
  - assert (Hk : ~ In k (keys p0)).
    { apply NoDup_remove_2 in Hnd; intros H; apply Hnd, in_or_app; auto. }
    rewrite Hm; simpl.
    rewrite <- (app_nil_r p0) at 1.
    rewrite (setitem_app p0 [] k (f k) Hk); simpl.
    rewrite IH.
    + rewrite <- app_assoc; reflexivity.
    + rewrite keys_app, <- app_assoc; exact Hnd.
Qed.

Lemma sample_pagerank_unfold U (c : corpus) d n samples :
  NoDup (keys c) ->
  sample_walk U c d n = Ok samples ->
  samples <> [] ->
  sample_pagerank U c d n = Ok (visit_ratios samples (keys c)).
Proof.
  intros Hnd Hw Hs; unfold sample_pagerank; rewrite Hw; simpl.
  apply (for_in_fill_with
           (fun page => truediv (of_nat (count samples page))
                          (of_nat (List.length samples)))
           (fun page => Qred (of_nat (count samples page)
                              / of_nat (List.length samples)))
           (keys c) []); [|exact Hnd].
  intros k; apply truediv_ok, of_nat_nonzero.
  destruct samples; [congruence | discriminate].
Qed.

(** *** Counting visits *)

Lemma list_sum_indicator_absent x (ks : list string) :
  ~ In x ks ->
  list_sum (map (fun k => if string_dec x k then 1 else 0)%nat ks) = 0%nat.
Proof.
  induction ks as [|k ks IH]; simpl; [reflexivity|].
  intros H; destruct (string_dec x k) as [->|_]; [tauto|].
  apply IH; tauto.
Qed.

Lemma list_sum_indicator x (ks : list string) :
  NoDup ks -> In x ks ->
  list_sum (map (fun k => if string_dec x k then 1 else 0)%nat ks) = 1%nat.
Proof.
  induction 1 as [|k ks Hk Hnd IH]; simpl; [tauto|].
  intros [->|Hin].
  - destruct (string_dec x x); [|congruence].
    rewrite list_sum_indicator_absent; auto.
  - destruct (string_dec x k) as [->|_]; [contradiction|].
    apply IH; exact Hin.
Qed.

(** Every visit is counted under exactly one key. *)
Lemma count_total (ks samples : list string) :
  NoDup ks ->
  Forall (fun x => In x ks) samples ->
  list_sum (map (count samples) ks) = List.length samples.
Proof.
  intros Hnd; induction 1 as [|x samples Hx _ IH]; simpl.
  - induction ks; simpl; auto.
    apply IHks; inversion Hnd; assumption.
  - assert (G : list_sum (map (count (x :: samples)) ks)
               = (list_sum (map (count samples) ks)
                  + list_sum (map (fun k => if string_dec x k then 1 else 0) ks))%nat).
    { clear; induction ks as [|k ks IHk]; [reflexivity|].
      change (list_sum (map (count (x :: samples)) (k :: ks)))
        with (count (x :: samples) k
              + list_sum (map (count (x :: samples)) ks))%nat.
      rewrite IHk; cbn [map list_sum fold_right].
      unfold count; cbn [count_occ].
      destruct (string_dec x k); unfold list_sum; lia. }
    rewrite G, IH, (list_sum_indicator x ks Hnd Hx); lia.
Qed.

Lemma of_nat_add a b : of_nat (a + b) == of_nat a + of_nat b.
Proof.
  unfold of_nat; rewrite Nat2Z.inj_add, inject_Z_plus; reflexivity.
Qed.

Lemma sum_of_nat (f : string -> nat) (ks : list string) :
  sum (map (fun k => of_nat (f k)) ks) == of_nat (list_sum (map f ks)).
Proof.
  induction ks as [|k ks IH]; simpl.
  - reflexivity.
  - rewrite sum_cons, IH, of_nat_add; reflexivity.
Qed.

Lemma sum_ratios (g : string -> Q) (L : Q) (ks : list string) :
  sum (map (fun k => Qred (g k / L)) ks) == sum (map g ks) / L.
Proof.
  induction ks as [|k ks IH]; simpl.
  - unfold sum; simpl; unfold Qdiv; ring.
  - rewrite !sum_cons, IH, Qred_correct; unfold Qdiv; ring.
Qed.

Lemma values_visit_ratios samples ks :
  values (visit_ratios samples ks)
  = map (fun k => Qred (of_nat (count samples k)
                        / of_nat (List.length samples))) ks.
Proof.
  unfold values, visit_ratios; rewrite map_map; reflexivity.
Qed.

Lemma keys_visit_ratios samples ks : keys (visit_ratios samples ks) = ks.
Proof.
  unfold keys, visit_ratios; rewrite map_map; simpl; apply map_id.
Qed.

Lemma getitem_visit_ratios samples ks page :
  In page ks ->
  getitem (visit_ratios samples ks) page
  = Ok (Qred (of_nat (count samples page) / of_nat (List.length samples))).
Proof.
  induction ks as [|k ks IH]; simpl; [tauto|].
  intros H; destruct (String.eqb page k) eqn:E.
  - apply String.eqb_eq in E; subst; reflexivity.
  - apply IH; destruct H as [->|H]; [|exact H].
    rewrite String.eqb_refl in E; discriminate.
Qed.

Lemma sum_map_eq {A : Type} (f g : A -> Q) (l : list A) :
  (forall x, In x l -> f x == g x) -> sum (map f l) == sum (map g l).
Proof.
  induction l as [|a l IH]; intros H; simpl; [reflexivity|].
  rewrite !sum_cons, (H a (or_introl eq_refl)), IH; [reflexivity|].
  intros x Hx; apply H; right; exact Hx.
Qed.

(** C6, as the code has it. On a non-empty well-formed graph, with a
    damping factor of [0,1] and [n >= 1], the visit record holds [n+1]
    pages; the returned vector has the graph's keys and gives each page
    the quotient of the number of its occurrences in the record by
    [n+1]; the numbers of occurrences add up to [n+1], so that the exact
    quotients add up to 1. *)
Theorem sample_pagerank_visit_frequencies (U : nat -> Q) (c : corpus)
  (d : num) (n : Z) :
  Graph_wf c ->
  c <> [] ->
  0 <= d <= 1 ->
  (1 <= n)%Z ->
  exists samples r,
    sample_walk U c d n = Ok samples /\
    Z.of_nat (List.length samples) = (n + 1)%Z /\
    sample_pagerank U c d n = Ok r /\
    keys r = keys c /\
    (forall page, In page (keys c) ->
       rank_of r page == of_nat (count samples page) / inject_Z (n + 1)) /\
    Z.of_nat (list_sum (map (count samples) (keys c))) = (n + 1)%Z /\
    sum (map (fun page => of_nat (count samples page) / inject_Z (n + 1))
           (keys c)) == 1.
Proof.
  intros Hwf Hne Hd Hn.
  destruct (sample_walk_record U c d n Hwf Hne Hd) as (samples & Hw & Hl & Hall).
  assert (Hs : samples <> []) by (destruct samples; [discriminate | congruence]).
  assert (HL : Z.of_nat (List.length samples) = (n + 1)%Z) by lia.
  pose proof (count_total _ _ (proj1 Hwf) Hall) as Hcount.
  exists samples, (visit_ratios samples (keys c)).
  split; [exact Hw|].
  split; [exact HL|].
  split; [apply (sample_pagerank_unfold U c d n samples (proj1 Hwf) Hw Hs)|].
  split; [apply keys_visit_ratios|].
  split; [|split].
  - intros page Hp; unfold rank_of.
    rewrite (getitem_visit_ratios samples (keys c) page Hp), Qred_correct.
    unfold of_nat at 2; rewrite HL; reflexivity.
  - rewrite Hcount; exact HL.
  - rewrite <- HL; fold (of_nat (List.length samples)).
    rewrite <- (sum_map_eq (fun page => Qred (of_nat (count samples page)
                                         / of_nat (List.length samples))))
      by (intros page _; apply Qred_correct).
    rewrite (sum_ratios (fun k => of_nat (count samples k))).
    rewrite (sum_of_nat (count samples)), Hcount.
    field; apply of_nat_nonzero; rewrite Hl; discriminate.
Qed.

Lemma sample_pagerank_visit_frequencies_witness :
  exists samples r,
    sample_walk variates corpus_tail (17 # 20) 10 = Ok samples /\
    Z.of_nat (List.length samples) = (10 + 1)%Z /\
    sample_pagerank variates corpus_tail (17 # 20) 10 = Ok r /\
    keys r = keys corpus_tail /\
    (forall page, In page (keys corpus_tail) ->
       rank_of r page == of_nat (count samples page) / inject_Z (10 + 1)) /\
    Z.of_nat (list_sum (map (count samples) (keys corpus_tail)))
    = (10 + 1)%Z /\
    sum (map (fun page => of_nat (count samples page) / inject_Z (10 + 1))
           (keys corpus_tail)) == 1.
Proof.
  apply sample_pagerank_visit_frequencies.
  - sample_wf.
  - discriminate.
  - split; discriminate.
  - lia.
Defined.

(** C6, as stated, fails in the arithmetic of the code. The walk on
    [corpus_tail] that visits A, B, B, B, B and C stores the quotients
    1/6, 4/6 and 1/6 as binary64 numbers; their sum is not 1: taken
    without rounding it is [1 - 2^-54], and added one after the other in
    binary64 it is the largest number below 1. *)
Lemma sample_pagerank_sum_below_one :
  sample_walk variates_abbbbc corpus_tail (17 # 20) 5
  = Ok ["A"; "B"; "B"; "B"; "B"; "C"]%string /\
  exists pageRank : dict Binary64.float,
    Binary64.visit_ratios ["A"; "B"; "B"; "B"; "B"; "C"]%string corpus_tail
    = Ok pageRank /\
    keys pageRank = keys corpus_tail /\
    Binary64.exact_sum (values pageRank)
    = Some (18014398509481983 # 18014398509481984) /\
    ~ (18014398509481983 # 18014398509481984) == 1 /\
    Binary64.float_sum (values pageRank) = Binary64.below_one /\
    PrimFloat.eqb (Binary64.float_sum (values pageRank)) Binary64.one = false.
Proof.
  split; [vm_compute; reflexivity|].
  eexists; split; [vm_compute; reflexivity|].
  split; [reflexivity|].
  split; [vm_compute; reflexivity|].
  split; [discriminate|].
  split; vm_compute; reflexivity.
Qed.

Lemma for_in_preserves {A S : Type} (P : S -> Prop) (xs : list A)
  (body : A -> S -> result S) (s0 s1 : S) :
  P s0 ->
  (forall x s s', P s -> body x s = Ok s' -> P s') ->
  for_in xs body s0 = Ok s1 -> P s1.
Proof.
  intros H0 Hstep; revert s0 H0; induction xs as [|x xs IH]; intros s0 H0; simpl.
  - intros H; inversion H; subst; exact H0.
  - destruct (body x s0) as [s|e] eqn:E; simpl; [|discriminate].
    apply IH, (Hstep x s0 s H0 E).
Qed.

Lemma sample_walk_nonempty U (c : corpus) d n samples :
  sample_walk U c d n = Ok samples -> samples <> [].
Proof.
  unfold sample_walk.
  destruct (random_choice (U 0%nat) (keys c)) as [first|e]; simpl; [|discriminate].
  apply (for_in_preserves (fun s : list string => s <> [])); [discriminate|].
  intros i s s' Hs.
  destruct (nth_or_IndexError s i); simpl; [|discriminate].
  destruct (transition_model c a d); simpl; [|discriminate].
  destruct (numpy_choice _ _ _); simpl; [|discriminate].
  intros H; inversion H; destruct s; discriminate.
Qed.

Lemma Qred_zero_ratio (y : Q) : Qred (of_nat 0 / y) = 0.
Proof.
  change (Qred (of_nat 0 / y) = Qred 0); apply Qred_complete.
  change (of_nat 0) with 0; unfold Qdiv; ring.
Qed.

(** C10. When [sample_pagerank] returns on a non-empty graph, the
    returned dictionary has exactly the graph's keys, and a page that
    does not occur in the visit record is stored with rank 0. *)
Theorem sample_pagerank_keys (U : nat -> Q) (c : corpus) (d : num) (n : Z)
  (r : dict num) :
  c <> [] ->
  NoDup (keys c) ->
  sample_pagerank U c d n = Ok r ->
  keys r = keys c /\
  exists samples,
    sample_walk U c d n = Ok samples /\
    forall page,
      In page (keys c) -> count samples page = 0%nat -> getitem r page = Ok 0.
Proof.
  intros _ Hnd Hr.
  destruct (sample_walk U c d n) as [samples|e] eqn:Hw.
  - pose proof (sample_walk_nonempty U c d n samples Hw) as Hs.
    rewrite (sample_pagerank_unfold U c d n samples Hnd Hw Hs) in Hr.
    inversion Hr; subst r; clear Hr.
    split; [apply keys_visit_ratios|].
    exists samples; split; [reflexivity|].
    intros page Hp H0.
    rewrite (getitem_visit_ratios samples (keys c) page Hp), H0.
    rewrite Qred_zero_ratio; reflexivity.
  - unfold sample_pagerank in Hr; rewrite Hw in Hr; discriminate.
Qed.

Lemma sample_pagerank_keys_witness :
  keys [("A"%string, 2 # 3); ("B"%string, 1 # 3); ("C"%string, 0)]
  = keys corpus_tail /\
  exists samples,
    sample_walk variates corpus_tail (17 # 20) 2 = Ok samples /\
    forall page,
      In page (keys corpus_tail) -> count samples page = 0%nat ->
      getitem [("A"%string, 2 # 3); ("B"%string, 1 # 3); ("C"%string, 0)]
        page = Ok 0.
Proof.
  apply (sample_pagerank_keys variates corpus_tail (17 # 20) 2).
  - discriminate.
  - sample_nodup.
  - vm_compute; reflexivity.
Defined.

(** C8, as the code has it. On a non-empty graph a sample count below 1
    raises nothing: no transition is made, the visit record is the
    initial page alone, and the returned vector gives that page rank 1
    and every other page rank 0. *)
Theorem sample_pagerank_nonpositive_count (U : nat -> Q) (c : corpus)
  (d : num) (n : Z) :
  c <> [] ->
  NoDup (keys c) ->
  (n < 1)%Z ->
  exists first,
    random_choice (U 0%nat) (keys c) = Ok first /\
    In first (keys c) /\
    sample_walk U c d n = Ok [first] /\
    sample_pagerank U c d n
    = Ok (map (fun k => (k, if String.eqb k first then 1 else 0)) (keys c)).
Proof.
  intros Hne Hnd Hn.
  assert (Hk : keys c <> []) by (destruct c; [congruence | discriminate]).
  destruct (random_choice_In (U 0%nat) (keys c) Hk) as (first & Hf & Hin).
  assert (Hw : sample_walk U c d n = Ok [first]).
  { unfold sample_walk; rewrite Hf; simpl.
    replace (Z.to_nat n) with 0%nat by lia; reflexivity. }
  exists first; split; [exact Hf|]; split; [exact Hin|]; split; [exact Hw|].
  rewrite (sample_pagerank_unfold U c d n [first] Hnd Hw) by discriminate.
  f_equal; unfold visit_ratios; apply map_ext; intros k.
  unfold count; simpl.
  destruct (string_dec first k) as [->|Hne'].
  - rewrite String.eqb_refl; reflexivity.
  - destruct (String.eqb k first) eqn:E; [|reflexivity].
    apply String.eqb_eq in E; congruence.
Qed.

Lemma sample_pagerank_nonpositive_count_witness :
  exists first,
    random_choice (variates 0%nat) (keys corpus_tail) = Ok first /\
    In first (keys corpus_tail) /\
    sample_walk variates corpus_tail (17 # 20) (-3) = Ok [first] /\
    sample_pagerank variates corpus_tail (17 # 20) (-3)
    = Ok (map (fun k => (k, if String.eqb k first then 1 else 0))
            (keys corpus_tail)).
Proof.
  apply sample_pagerank_nonpositive_count.
  - discriminate.
  - sample_nodup.
  - lia.
Defined.

(** C8, as stated, fails: with a sample count of 0, and with a negative
    one, the call returns a rank vector instead of raising. *)
Lemma sample_pagerank_accepts_nonpositive_count :
  sample_pagerank variates corpus_single (17 # 20) 0
  = Ok [("A"%string, 1)] /\
  sample_pagerank variates corpus_tail (17 # 20) (-3)
  = Ok [("A"%string, 1); ("B"%string, 0); ("C"%string, 0)].
Proof.
  split; vm_compute; reflexivity.
Qed.

(** ** The empty graph *)

(** C7, as the code has it. On the empty graph neither estimator
    returns: [sample_pagerank] stops at [random.choice] on the empty
    page list with [IndexError], and [iterate_pagerank] stops at
    [(1 - d) / n] with [ZeroDivisionError], before its loop starts. *)
Theorem estimators_on_empty_graph (U : nat -> Q) (d : num) (n : Z)
  (fuel : nat) :
  sample_pagerank U [] d n = Raise IndexError /\
  iterate_pagerank fuel [] d = Some (Raise ZeroDivisionError).
Proof.
  split.
  - unfold sample_pagerank, sample_walk; simpl.
    rewrite random_choice_empty; reflexivity.
  - reflexivity.
Qed.

(** C7, as stated, fails: on the empty graph the iterative estimator
    ends in a division by zero. *)
Lemma iterate_pagerank_empty_divides_by_zero :
  iterate_pagerank 1 [] (17 # 20) = Some (Raise ZeroDivisionError).
Proof.
  vm_compute; reflexivity.
Qed.

(** * [iterate_pagerank] *)

(** ** The rewriting of dangling pages *)

Lemma keys_neutralise_in c l : keys (neutralise_in c l) = keys l.
Proof.
  unfold keys, neutralise_in; rewrite map_map; reflexivity.
Qed.

Lemma keys_neutralise c : keys (neutralise c) = keys c.
Proof. apply keys_neutralise_in. Qed.

Lemma len_neutralise c : len (neutralise c) = len c.
Proof. apply length_map. Qed.

Lemma links_len_same (c1 c2 : corpus) v :
  len c1 = len c2 -> links_len c1 v = links_len c2 v.
Proof. intros H; destruct v; simpl; auto. Qed.

Section Neutralised.
Context (c c' : corpus) (v : links).
Hypothesis Hlen : len c' = len c.
Hypothesis Hkeys : keys c' = keys c.
Hypothesis Hne : len c <> 0%nat.

Lemma links_contains_neutralised page :
  links_contains c' (neutralised c v) page = mem page (effective c v).
Proof.
  unfold neutralised, effective.
  destruct (Nat.eqb (links_len c v) 0); simpl; [rewrite Hkeys; reflexivity|].
  destruct v; simpl; [reflexivity | rewrite Hkeys; reflexivity].
Qed.

Lemma links_len_neutralised :
  links_len c' (neutralised c v) = List.length (effective c v).
Proof.
  unfold neutralised, effective.
  destruct (Nat.eqb (links_len c v) 0); simpl.
  - rewrite Hlen, len_keys; reflexivity.
  - rewrite links_len_iter; apply links_len_same; exact Hlen.
Qed.

Lemma effective_nonempty : List.length (effective c v) <> 0%nat.
Proof.
  unfold effective.
  destruct (Nat.eqb (links_len c v) 0) eqn:E.
  - rewrite len_keys; exact Hne.
  - apply Nat.eqb_neq in E; rewrite links_len_iter; exact E.
Qed.

Lemma effective_neutralised : effective c' (neutralised c v) = effective c v.
Proof.
  unfold effective at 1.
  rewrite links_len_neutralised.
  destruct (Nat.eqb (List.length (effective c v)) 0) eqn:E.
  - apply Nat.eqb_eq in E; destruct (effective_nonempty E).
  - unfold neutralised, effective.
    destruct (Nat.eqb (links_len c v) 0); simpl; [exact Hkeys|].
    destruct v; simpl; [reflexivity | exact Hkeys].
Qed.

Lemma neutralised_twice : neutralised c' (neutralised c v) = neutralised c v.
Proof.
  unfold neutralised at 1.
  rewrite links_len_neutralised.
  destruct (Nat.eqb (List.length (effective c v)) 0) eqn:E; [|reflexivity].
  apply Nat.eqb_eq in E; destruct (effective_nonempty E).
Qed.

End Neutralised.

Lemma in_corpus_nonempty (c : corpus) kv : In kv c -> len c <> 0%nat.
Proof. destruct c; simpl; [tauto | discriminate]. Qed.

Lemma neutralise_twice c : neutralise (neutralise c) = neutralise c.
Proof.
  assert (G : forall l,
             (forall kv, In kv l -> In kv c) ->
             neutralise_in (neutralise c) (neutralise_in c l)
             = neutralise_in c l).
  { induction l as [|[k v] l IH]; intros Hl; simpl; [reflexivity|].
    rewrite IH by (intros kv H; apply Hl; right; exact H).
    rewrite (neutralised_twice c (neutralise c) v (len_neutralise c)
               (in_corpus_nonempty c (k, v) (Hl _ (or_introl eq_refl)))).
    reflexivity. }
  exact (G c (fun kv H => H)).
Qed.

Lemma neutralise_no_dangling c :
  (forall kv, In kv c -> links_len c (snd kv) <> 0%nat) -> neutralise c = c.
Proof.
  intros H; unfold neutralise, neutralise_in.
  transitivity (map (fun kv : string * links => kv) c); [|apply map_id].
  apply map_ext_in; intros [k v] Hin; simpl; f_equal.
  unfold neutralised.
  destruct (Nat.eqb (links_len c v) 0) eqn:E; [|reflexivity].
  apply Nat.eqb_eq in E; destruct (H (k, v) Hin E).
Qed.

Lemma getitem_neutralise_in c l page v :
  getitem l page = Ok v ->
  getitem (neutralise_in c l) page = Ok (neutralised c v).
Proof.
  induction l as [|[k w] l IH]; simpl; [discriminate|].
  destruct (String.eqb page k); [|exact IH].
  intros H; inversion H; reflexivity.
Qed.

(** ** The sum of incoming shares *)

Lemma share_compat c (f g : string -> Q) p acc acc' kv :
  acc == acc' -> f (fst kv) == g (fst kv) ->
  share c f p acc kv == share c g p acc' kv.
Proof.
  intros Ha Hf; unfold share.
  destruct (mem p (effective c (snd kv))); [|exact Ha].
  rewrite Ha, Hf; reflexivity.
Qed.

Lemma fold_share_compat c (f g : string -> Q) p l acc acc' :
  acc == acc' -> (forall q, f q == g q) ->
  fold_left (share c f p) l acc == fold_left (share c g p) l acc'.
Proof.
  intros Ha Hf; revert acc acc' Ha; induction l as [|kv l IH]; intros; simpl.
  - exact Ha.
  - apply IH, share_compat; auto.
Qed.

Lemma incoming_ext c (f g : string -> Q) p :
  (forall q, f q == g q) -> incoming c f p == incoming c g p.
Proof.
  intros H; apply fold_share_compat; [reflexivity | exact H].
Qed.

Lemma incoming_neutralise c rank p :
  incoming (neutralise c) rank p = incoming c rank p.
Proof.
  unfold incoming.
  assert (G : forall l acc,
             (forall kv, In kv l -> In kv c) ->
             fold_left (share (neutralise c) rank p) (neutralise_in c l) acc
             = fold_left (share c rank p) l acc).
  { induction l as [|[k v] l IH]; intros acc Hl; simpl; [reflexivity|].
    rewrite IH by (intros kv H; apply Hl; right; exact H).
    f_equal; unfold share; simpl.
    rewrite (effective_neutralised c (neutralise c) v (len_neutralise c)
               (keys_neutralise c)
               (in_corpus_nonempty c (k, v) (Hl _ (or_introl eq_refl)))).
    reflexivity. }
  exact (G c 0 (fun kv H => H)).
Qed.

(** ** The inner loop *)

Lemma rank_of_getitem (pr : dict Q) k :
  In k (keys pr) -> getitem pr k = Ok (rank_of pr k).
Proof.
  intros H; destruct (getitem_In pr k H) as (x & Hx).
  unfold rank_of; rewrite Hx; reflexivity.
Qed.

(** One iteration of [for link in corpus.keys()], at the entry [(k, v)]
    that follows the already rewritten entries [front]. *)
Lemma inner_body_step (c : corpus) page (pr : dict Q) front k v back acc :
  len (front ++ (k, v) :: back) = len c ->
  keys (front ++ (k, v) :: back) = keys c ->
  ~ In k (keys front) ->
  In k (keys pr) ->
  inner_body page pr k (front ++ (k, v) :: back, acc)
  = Ok (front ++ (k, neutralised c v) :: back,
        if mem page (effective c v)
        then add acc (Qred (rank_of pr k
                            / of_nat (List.length (effective c v))))
        else acc).
Proof.
  intros Hlen Hkeys Hfront Hk.
  assert (Hne : len c <> 0%nat).
  { rewrite <- Hlen; unfold len; rewrite length_app; simpl; lia. }
  unfold inner_body.
  rewrite (getitem_app front _ k Hfront); simpl; rewrite String.eqb_refl.
  cbn [bind]; cbv zeta.
  rewrite (links_len_same _ c v Hlen).
  set (cur := if Nat.eqb (links_len c v) 0
              then setitem (front ++ (k, v) :: back) k KeysView
              else front ++ (k, v) :: back).
  assert (Hcur : cur = front ++ (k, neutralised c v) :: back).
  { unfold cur, neutralised.
    destruct (Nat.eqb (links_len c v) 0); [|reflexivity].
    rewrite (setitem_app front _ k KeysView Hfront); simpl.
    rewrite String.eqb_refl; reflexivity. }
  clearbody cur; subst cur.
  remember (front ++ (k, neutralised c v) :: back) as cur eqn:Ecur.
  assert (Hlen' : len cur = len c).
  { rewrite <- Hlen, Ecur; unfold len; rewrite !length_app; reflexivity. }
  assert (Hkeys' : keys cur = keys c).
  { rewrite <- Hkeys, Ecur, !keys_app; reflexivity. }
  assert (Hget : getitem cur k = Ok (neutralised c v)).
  { rewrite Ecur, (getitem_app front _ k Hfront); simpl.
    rewrite String.eqb_refl; reflexivity. }
  rewrite Hget; cbn [bind].
  rewrite (links_contains_neutralised c cur v Hkeys' page).
  destruct (mem page (effective c v)); [|reflexivity].
  rewrite (rank_of_getitem pr k Hk); cbn [bind].
  rewrite (links_len_neutralised c cur v Hlen').
  rewrite truediv_ok;
    [reflexivity | apply of_nat_nonzero, (effective_nonempty c v Hne)].
Qed.

Lemma inner_loop_from (c : corpus) page (pr : dict Q) :
  NoDup (keys c) -> keys pr = keys c ->
  forall back front acc acc',
    c = front ++ back -> acc == acc' ->
    exists s,
      for_in (keys back) (inner_body page pr) (neutralise_in c front ++ back, acc)
      = Ok (neutralise_in c front ++ neutralise_in c back, s) /\
      s == fold_left (share c (rank_of pr) page) back acc'.
Proof.
  intros Hnd Hpr; induction back as [|[k v] back IH]; intros front acc acc' Hc Ha.
  - simpl; exists acc; split; [reflexivity | exact Ha].
  - change (keys ((k, v) :: back)) with (k :: keys back).
    cbn [for_in fold_left].
    assert (Hfront : ~ In k (keys (neutralise_in c front))).
    { rewrite keys_neutralise_in; intros H.
      rewrite Hc, keys_app in Hnd; simpl in Hnd.
      apply NoDup_remove_2 in Hnd; apply Hnd, in_or_app; auto. }
    rewrite (inner_body_step c page pr (neutralise_in c front) k v back acc).
    + cbn [bind].
      replace (neutralise_in c front ++ (k, neutralised c v) :: back)
        with (neutralise_in c (front ++ [(k, v)]) ++ back)
        by (unfold neutralise_in; rewrite map_app, <- app_assoc; reflexivity).
      destruct (IH (front ++ [(k, v)])
                  (if mem page (effective c v)
                   then add acc (Qred (rank_of pr k
                                       / of_nat (List.length (effective c v))))
                   else acc)
                  (share c (rank_of pr) page acc' (k, v)))
        as (s & Hs & Hval).
      * rewrite <- app_assoc; exact Hc.
      * unfold share; simpl.
        destruct (mem page (effective c v)); [|exact Ha].
        rewrite add_spec, Qred_correct, Ha; reflexivity.
      * exists s; split; [|exact Hval].
        rewrite Hs; unfold neutralise_in; rewrite map_app, <- app_assoc.
        reflexivity.
    + unfold len, neutralise_in.
      rewrite length_app, length_map, <- length_app, <- Hc; reflexivity.
    + rewrite keys_app, keys_neutralise_in, <- keys_app, <- Hc; reflexivity.
    + exact Hfront.
    + rewrite Hpr, Hc, keys_app; apply in_or_app; right; left; reflexivity.
Qed.

Lemma inner_loop (c : corpus) page (pr : dict Q) :
  NoDup (keys c) -> keys pr = keys c ->
  exists s,
    for_in (keys c) (inner_body page pr) (c, 0) = Ok (neutralise c, s) /\
    s == incoming c (rank_of pr) page.
Proof.
  intros Hnd Hpr.
  exact (inner_loop_from c page pr Hnd Hpr c [] 0 0 eq_refl (Qeq_refl 0)).
Qed.

(** One iteration of [for page in pageRank]. *)
Lemma update_page_step (c : corpus) page (pr : dict Q) algConst d :
  NoDup (keys c) -> keys pr = keys c ->
  exists v,
    update_page algConst d page (c, pr)
    = Ok (neutralise c, setitem pr page v) /\
    v == algConst + d * incoming c (rank_of pr) page.
Proof.
  intros Hnd Hpr.
  destruct (inner_loop c page pr Hnd Hpr) as (s & Hs & Hval).
  unfold update_page; rewrite Hs; cbn [bind].
  eexists; split; [reflexivity|].
  rewrite add_spec, mul_spec, Hval; reflexivity.
Qed.

(** ** One pass *)

Lemma rank_of_setitem_same (pr : dict Q) k v : rank_of (setitem pr k v) k = v.
Proof.
  unfold rank_of; rewrite getitem_setitem_same; reflexivity.
Qed.

Lemma rank_of_setitem_other (pr : dict Q) k k' v :
  k <> k' -> rank_of (setitem pr k v) k' = rank_of pr k'.
Proof.
  intros H; unfold rank_of; rewrite getitem_setitem_other by exact H.
  reflexivity.
Qed.

Lemma in_place_view_agree done prev new1 new2 :
  (forall q, In q done -> rank_of new1 q = rank_of new2 q) ->
  forall q, in_place_view done prev new1 q == in_place_view done prev new2 q.
Proof.
  intros H q; unfold in_place_view.
  destruct (mem q done) eqn:E; [|reflexivity].
  apply mem_In in E; rewrite (H q E); reflexivity.
Qed.

Lemma in_place_view_now done prev cur :
  (forall q, ~ In q done -> rank_of cur q = rank_of prev q) ->
  forall q, rank_of cur q == in_place_view done prev cur q.
Proof.
  intros H q; unfold in_place_view.
  destruct (mem q done) eqn:E; [reflexivity|].
  rewrite H; [reflexivity|].
  intros Hin; apply mem_In in Hin; congruence.
Qed.

(** A pass rewrites the dangling pages of the caller's dictionary and
    updates the ranks in key order, each from the vector as it stands. *)
Lemma one_pass_spec (c : corpus) (pr : dict Q) (algConst d : Q) :
  NoDup (keys c) -> keys pr = keys c ->
  exists pr',
    one_pass algConst d (c, pr) = Ok (neutralise c, pr') /\
    keys pr' = keys c /\
    forall done p rest,
      keys c = done ++ p :: rest ->
      rank_of pr' p
      == algConst + d * incoming c (in_place_view done pr pr') p.
Proof.
  intros Hnd Hpr; unfold one_pass; cbn [snd].
  destruct (for_in_invariant
              (fun done (st : corpus * dict Q) =>
                 (fst st = c \/ fst st = neutralise c) /\
                 (done <> [] -> fst st = neutralise c) /\
                 keys (snd st) = keys c /\
                 (forall q, ~ In q done -> rank_of (snd st) q = rank_of pr q) /\
                 (forall pre p post,
                     done = pre ++ p :: post ->
                     rank_of (snd st) p
                     == algConst
                        + d * incoming c (in_place_view pre pr (snd st)) p))
              (keys pr) (update_page algConst d) (c, pr))
    as ([c' pr'] & Hrun & Hc & Hc' & Hk & _ & Hval).
  - cbn [fst snd]; repeat split; auto.
    + congruence.
    + intros pre p post E; destruct pre; discriminate.
  - intros done x rest [cur prc] E (Hcur & _ & Hk & Hold & Hval).
    cbn [fst snd] in *.
    assert (Hx : ~ In x done).
    { rewrite E in Hpr; rewrite <- Hpr in Hnd.
      apply NoDup_remove_2 in Hnd; intros H; apply Hnd, in_or_app; auto. }
    assert (Hxk : In x (keys prc)).
    { rewrite Hk, <- Hpr, E; apply in_or_app; right; left; reflexivity. }
    assert (Hndc : NoDup (keys cur)).
    { destruct Hcur as [->| ->]; [|rewrite keys_neutralise]; exact Hnd. }
    assert (Hkc : keys prc = keys cur).
    { destruct Hcur as [->| ->]; [|rewrite keys_neutralise]; exact Hk. }
    destruct (update_page_step cur x prc algConst d Hndc Hkc)
      as (v & Hstep & Hv).
    assert (Hn : neutralise cur = neutralise c).
    { destruct Hcur as [->| ->]; [reflexivity | apply neutralise_twice]. }
    assert (Hinc : incoming cur (rank_of prc) x = incoming c (rank_of prc) x).
    { destruct Hcur as [->| ->]; [reflexivity | apply incoming_neutralise]. }
    rewrite Hn in Hstep; rewrite Hinc in Hv.
    eexists; split; [exact Hstep|]; cbn [fst snd].
    split; [right; reflexivity|].
    split; [reflexivity|].
    split; [rewrite keys_setitem; auto|].
    split.
    + intros q Hq; rewrite rank_of_setitem_other.
      * apply Hold; intros H; apply Hq, in_or_app; auto.
      * intros ->; apply Hq, in_or_app; right; left; reflexivity.
    + intros pre p post Edone.
      induction post as [|y post _] using rev_ind.
      * apply app_inj_tail in Edone; destruct Edone as [<- <-].
        rewrite rank_of_setitem_same.
        apply (Qeq_trans _ _ _ Hv).
        apply Qplus_comp; [reflexivity|].
        apply Qmult_comp; [reflexivity|].
        apply incoming_ext; intros q.
        rewrite (in_place_view_now done pr prc Hold q).
        apply in_place_view_agree; intros q' Hq'.
        symmetry; apply rank_of_setitem_other; congruence.
      * change (pre ++ p :: post ++ [y]) with (pre ++ (p :: post) ++ [y]) in Edone.
        rewrite app_assoc in Edone.
        apply app_inj_tail in Edone; destruct Edone as [Edone <-].
        assert (Hp : In p done).
        { rewrite Edone; apply in_or_app; right; left; reflexivity. }
        rewrite rank_of_setitem_other by congruence.
        apply (Qeq_trans _ _ _ (Hval pre p post Edone)).
        apply Qplus_comp; [reflexivity|].
        apply Qmult_comp; [reflexivity|].
        apply incoming_ext.
        apply in_place_view_agree; intros q' Hq'.
        symmetry; apply rank_of_setitem_other.
        intros ->; apply Hx; rewrite Edone; apply in_or_app; auto.
  - cbn [fst snd] in *.
    assert (Ec : c' = neutralise c).
    { destruct (keys pr) eqn:Ek.
      - destruct Hc as [->| ->]; [|reflexivity].
        rewrite Hpr in Ek; destruct c; [reflexivity | discriminate].
      - apply Hc'; discriminate. }
    subst c'; exists pr'; split; [exact Hrun|]; split; [exact Hk|].
    intros done p rest E; apply (Hval done p rest).
    rewrite Hpr; exact E.
Qed.

(** ** The loop *)

Lemma iterate_init_ok (c : corpus) (d : Q) :
  NoDup (keys c) -> c <> [] ->
  exists x algConst,
    iterate_init c d = Ok (map (fun k => (k, x)) (keys c), algConst) /\
    x == 1 / of_nat (len c) /\
    algConst == (1 - d) / of_nat (len c).
Proof.
  intros Hnd Hne.
  assert (HN : ~ of_nat (len c) == 0).
  { apply of_nat_nonzero; destruct c; [congruence | discriminate]. }
  unfold iterate_init.
  rewrite (for_in_fill _ _ (keys c) [] (truediv_ok 1 _ HN)) by exact Hnd.
  cbn [bind app]; rewrite (truediv_ok _ _ HN); cbn [bind].
  do 2 eexists; split; [reflexivity|]; split.
  - apply Qred_correct.
  - rewrite Qred_correct, sub_spec; reflexivity.
Qed.

Lemma gtb_lt x y : gtb x y = true <-> y < x.
Proof. unfold gtb; apply ltb_lt. Qed.

(** [max_change_of] returns the largest absolute per-page change. *)
Lemma max_change_of_spec (prev new : dict Q) :
  keys prev = keys new ->
  exists m,
    max_change_of prev new = Ok m /\
    (forall page, In page (keys new) ->
       Qabs (rank_of prev page - rank_of new page) <= m) /\
    (new <> [] ->
     exists page, In page (keys new) /\
       m == Qabs (rank_of prev page - rank_of new page)).
Proof.
  intros Hk; unfold max_change_of.
  destruct (for_in_invariant
              (fun done m =>
                 (forall page, In page done ->
                    Qabs (rank_of prev page - rank_of new page) <= m) /\
                 ((done = [] /\ m = - (10000 # 1)) \/
                  exists page, In page done /\
                    m == Qabs (rank_of prev page - rank_of new page)))
              (keys new)
              (fun page max_change =>
                 a <- getitem prev page ;;
                 b <- getitem new page ;;
                 if gtb (abs (sub a b)) max_change
                 then Ok (abs (sub a b))
                 else Ok max_change)
              (- (10000 # 1))) as (m & Hm & Hall & Hex).
  - split; [intros page []|left; split; reflexivity].
  - intros done x rest m E (Hall & Hex).
    assert (Hx : In x (keys new)).
    { rewrite E; apply in_or_app; right; left; reflexivity. }
    rewrite (rank_of_getitem prev x) by (rewrite Hk; exact Hx).
    rewrite (rank_of_getitem new x Hx); cbn [bind].
    set (t := abs (sub (rank_of prev x) (rank_of new x))).
    assert (Ht : t == Qabs (rank_of prev x - rank_of new x)).
    { unfold t; rewrite abs_spec, sub_spec; reflexivity. }
    destruct (gtb t m) eqn:G.
    + apply gtb_lt in G.
      eexists; split; [reflexivity|]; split.
      * intros page Hp; apply in_app_or in Hp; destruct Hp as [Hp|[<-|[]]].
        -- apply Qle_trans with m; [apply Hall, Hp | apply Qlt_le_weak, G].
        -- rewrite Ht; apply Qle_refl.
      * right; exists x; split; [apply in_or_app; right; left; reflexivity|].
        exact Ht.
    + assert (Hle : t <= m).
      { apply Qnot_lt_le; intros H; apply gtb_lt in H; congruence. }
      eexists; split; [reflexivity|]; split.
      * intros page Hp; apply in_app_or in Hp; destruct Hp as [Hp|[<-|[]]].
        -- apply Hall, Hp.
        -- rewrite <- Ht; exact Hle.
      * right; destruct Hex as [[_ ->]|(page & Hp & Hpage)].
        -- exfalso; apply (Qle_not_lt _ _ Hle).
           apply Qlt_le_trans with 0; [reflexivity|].
           rewrite Ht; apply Qabs_nonneg.
        -- exists page; split; [apply in_or_app; left; exact Hp | exact Hpage].
  - exists m; split; [exact Hm|]; split; [exact Hall|].
    intros Hne; destruct Hex as [[E _]|Hex]; [|exact Hex].
    destruct new; [congruence | discriminate].
Qed.

Lemma run_passes_ok (algConst d : Q) (k : nat) :
  forall (c : corpus) (pr : dict Q),
    NoDup (keys c) -> keys pr = keys c ->
    exists c' pr',
      run_passes k algConst d (c, pr) = Ok (c', pr') /\
      (c' = c \/ c' = neutralise c) /\
      keys pr' = keys c.
Proof.
  induction k as [|k IH]; intros c pr Hnd Hpr; simpl.
  - exists c, pr; auto.
  - destruct (one_pass_spec c pr algConst d Hnd Hpr) as (pr1 & Hpass & Hk1 & _).
    rewrite Hpass; cbn [bind].
    destruct (IH (neutralise c) pr1) as (c' & pr' & Hrun & Hc & Hk).
    + rewrite keys_neutralise; exact Hnd.
    + rewrite keys_neutralise; exact Hk1.
    + exists c', pr'; split; [exact Hrun|]; split.
      * right; destruct Hc as [->| ->]; [reflexivity | apply neutralise_twice].
      * rewrite Hk; apply keys_neutralise.
Qed.

(** A pass that ends with a change of at least the threshold is followed
    by another pass. *)
Lemma while_true_step fuel algConst d (c c' : corpus) (pr pr' : dict Q) m :
  one_pass algConst d (c, pr) = Ok (c', pr') ->
  max_change_of pr pr' = Ok m ->
  ltb m threshold = false ->
  while_true (S fuel) algConst d c pr = while_true fuel algConst d c' pr'.
Proof.
  intros Hp Hm Hlt; simpl; rewrite Hp, Hm, Hlt; reflexivity.
Qed.

Lemma while_true_break fuel algConst d (c c' : corpus) (pr pr' : dict Q) m :
  one_pass algConst d (c, pr) = Ok (c', pr') ->
  max_change_of pr pr' = Ok m ->
  ltb m threshold = true ->
  while_true (S fuel) algConst d c pr = Some (Ok (c', pr')).
Proof.
  intros Hp Hm Hlt; simpl; rewrite Hp, Hm, Hlt; reflexivity.
Qed.




(** Whatever the loop returns, the dictionary it leaves is the rewritten
    one. *)
Lemma while_true_corpus (algConst d : Q) (fuel : nat) :
  forall (c c' : corpus) (pr pr' : dict Q),
    NoDup (keys c) -> keys pr = keys c ->
    while_true fuel algConst d c pr = Some (Ok (c', pr')) ->
    c' = neutralise c.
Proof.
  induction fuel as [|fuel IH]; intros c c' pr pr' Hnd Hpr; [discriminate|].
  destruct (one_pass_spec c pr algConst d Hnd Hpr) as (pr1 & Hpass & Hk1 & _).
  destruct (max_change_of_spec pr pr1) as (m & Hm & _); [congruence|].
  destruct (ltb m threshold) eqn:E.
  - rewrite (while_true_break fuel algConst d c _ pr pr1 m Hpass Hm E).
    intros H; inversion H; reflexivity.
  - rewrite (while_true_step fuel algConst d c _ pr pr1 m Hpass Hm E).
    intros H; apply IH in H.
    + rewrite H; apply neutralise_twice.
    + rewrite keys_neutralise; exact Hnd.
    + rewrite keys_neutralise; exact Hk1.
Qed.

Lemma In_getitem {V : Type} (d : dict V) k v :
  NoDup (keys d) -> In (k, v) d -> getitem d k = Ok v.
Proof.
  induction d as [|[k' v'] d IH]; simpl; [tauto|].
  intros Hnd [E|Hin].
  - inversion E; subst; rewrite String.eqb_refl; reflexivity.
  - destruct (String.eqb k k') eqn:E.
    + apply String.eqb_eq in E; subst k'.
      inversion Hnd as [|? ? Hk _]; subst.
      exfalso; apply Hk, (in_map fst d (k, v) Hin).
    + apply IH; [inversion Hnd; assumption | exact Hin].
Qed.

Lemma iterate_init_nonempty (c : corpus) d pageRank algConst :
  iterate_init c d = Ok (pageRank, algConst) -> c <> [].
Proof.
  intros H ->; discriminate.
Qed.

(** ** Claims about [iterate_pagerank] *)

(** C1, as the code has it. When [iterate_pagerank] returns, the caller's
    dictionary has the same keys; under each page whose outbound set was
    empty it now holds the view of all keys, and under every other page
    what it held before. A graph without dangling pages is left as it
    was. *)
Theorem iterate_pagerank_rewrites_dangling_pages (fuel : nat) (c : corpus)
  (d : num) (c' : corpus) (pageRank : dict num) :
  NoDup (keys c) ->
  iterate_pagerank fuel c d = Some (Ok (c', pageRank)) ->
  keys c' = keys c /\
  (forall page v,
      getitem c page = Ok v ->
      getitem c' page
      = Ok (if Nat.eqb (links_len c v) 0 then KeysView else v)) /\
  ((forall page v, getitem c page = Ok v -> links_len c v <> 0%nat) ->
   c' = c).
Proof.
  intros Hnd Hrun; unfold iterate_pagerank in Hrun.
  destruct (iterate_init c d) as [[pr0 algConst]|e] eqn:Hinit; [|discriminate].
  pose proof (iterate_init_nonempty c d pr0 algConst Hinit) as Hne.
  destruct (iterate_init_ok c d Hnd Hne) as (x & a & Hinit' & _).
  rewrite Hinit in Hinit'; inversion Hinit'; subst pr0 algConst; clear Hinit'.
  apply while_true_corpus in Hrun; [|exact Hnd|apply keys_const].
  subst c'; split; [apply keys_neutralise|]; split.
  - intros page v Hget; apply (getitem_neutralise_in c c page v Hget).
  - intros Hno; apply neutralise_no_dangling; intros [k v] Hin.
    apply (Hno k v), In_getitem; assumption.
Qed.

Lemma iterate_pagerank_rewrites_dangling_pages_witness :
  keys [("A"%string, PySet ["B"%string]); ("B"%string, KeysView)]
  = keys corpus_dangling /\
  (forall page v,
      getitem corpus_dangling page = Ok v ->
      getitem [("A"%string, PySet ["B"%string]); ("B"%string, KeysView)] page
      = Ok (if Nat.eqb (links_len corpus_dangling v) 0 then KeysView else v)) /\
  ((forall page v,
       getitem corpus_dangling page = Ok v ->
       links_len corpus_dangling v <> 0%nat) ->
   [("A"%string, PySet ["B"%string]); ("B"%string, KeysView)]
   = corpus_dangling).
Proof.
  apply (iterate_pagerank_rewrites_dangling_pages 1 corpus_dangling 0 _
           [("A"%string, 1 # 2); ("B"%string, 1 # 2)]).
  - sample_nodup.
  - vm_compute; reflexivity.
Defined.

(** C1, as stated, fails: after the call on a graph with a dangling
    page, the caller's dictionary holds the keys view under that page,
    not the empty set it held before. *)
Lemma iterate_pagerank_mutates_graph :
  exists c' pageRank,
    iterate_pagerank 50 corpus_dangling (17 # 20) = Some (Ok (c', pageRank)) /\
    getitem corpus_dangling "B"%string = Ok (PySet []) /\
    getitem c' "B"%string = Ok KeysView.
Proof.
  do 2 eexists; split; [vm_compute; reflexivity|].
  split; reflexivity.
Qed.

(** C2, as the code has it. Every pass of the loop returns, and updates
    the pages in key order, in place: the new rank of [p] is
    [(1-d)/N + d * sum], the sum taken over the pages [q] whose effective
    outbound set contains [p] of [r q / |effective-outbound q|], where
    [r q] is the rank already written in this pass for the pages before
    [p] in key order, and the rank of the previous pass for [p] and the
    pages after it. *)
Theorem one_pass_updates_in_place (c : corpus) (d : num)
  (pageRank : dict num) (algConst : num) (k : nat)
  (st : corpus * dict num) :
  NoDup (keys c) ->
  iterate_init c d = Ok (pageRank, algConst) ->
  run_passes k algConst d (c, pageRank) = Ok st ->
  exists st',
    one_pass algConst d st = Ok st' /\
    forall done p rest,
      keys c = done ++ p :: rest ->
      rank_of (snd st') p
      == (1 - d) / of_nat (len c)
         + d * incoming c (in_place_view done (snd st) (snd st')) p.
Proof.
  intros Hnd Hinit Hrun.
  pose proof (iterate_init_nonempty c d pageRank algConst Hinit) as Hne.
  destruct (iterate_init_ok c d Hnd Hne) as (x & a & Hinit' & _ & Ha).
  rewrite Hinit in Hinit'; inversion Hinit'; subst pageRank a; clear Hinit'.
  destruct (run_passes_ok algConst d k c _ Hnd (keys_const x (keys c)))
    as (c1 & pr1 & Hrun' & Hc1 & Hk1).
  rewrite Hrun in Hrun'; inversion Hrun'; subst st; clear Hrun'.
  assert (Hkc : keys c1 = keys c).
  { destruct Hc1 as [->| ->]; [reflexivity | apply keys_neutralise]. }
  destruct (one_pass_spec c1 pr1 algConst d) as (pr2 & Hpass & Hk2 & Hval).
  { rewrite Hkc; exact Hnd. }
  { rewrite Hkc; exact Hk1. }
  eexists; split; [exact Hpass|]; cbn [snd].
  intros done p rest E.
  rewrite (Hval done p rest) by (rewrite Hkc; exact E).
  rewrite Ha.
  destruct Hc1 as [->| ->]; [reflexivity|].
  rewrite incoming_neutralise; reflexivity.
Qed.

Lemma one_pass_updates_in_place_witness :
  exists st',
    one_pass (1 # 20) (17 # 20)
      (corpus_tail,
       [("A"%string, 1 # 3); ("B"%string, 1 # 3); ("C"%string, 1 # 3)])
    = Ok st' /\
    forall done p rest,
      keys corpus_tail = done ++ p :: rest ->
      rank_of (snd st') p
      == (1 - (17 # 20)) / of_nat (len corpus_tail)
         + (17 # 20)
           * incoming corpus_tail
               (in_place_view done
                  (snd (corpus_tail,
                        [("A"%string, 1 # 3); ("B"%string, 1 # 3);
                         ("C"%string, 1 # 3)]))
                  (snd st')) p.
Proof.
  apply (one_pass_updates_in_place corpus_tail (17 # 20)
           [("A"%string, 1 # 3); ("B"%string, 1 # 3); ("C"%string, 1 # 3)]
           (1 # 20) 0).
  - sample_nodup.
  - vm_compute; reflexivity.
  - reflexivity.
Defined.

(** C2, as stated, fails: in the first pass over [corpus_tail] the new
    rank of B is computed from the rank of A written a moment before,
    and differs from the value the simultaneous update gives. *)
Lemma one_pass_reads_updated_ranks :
  exists pageRank algConst st',
    iterate_init corpus_tail (17 # 20) = Ok (pageRank, algConst) /\
    one_pass algConst (17 # 20) (corpus_tail, pageRank) = Ok st' /\
    rank_of (snd st') "B"%string == 689 # 1200 /\
    simultaneous_rank corpus_tail (17 # 20) pageRank "B"%string == 1 # 3 /\
    ~ rank_of (snd st') "B"%string
      == simultaneous_rank corpus_tail (17 # 20) pageRank "B"%string.
Proof.
  do 3 eexists.
  split; [vm_compute; reflexivity|].
  split; [vm_compute; reflexivity|].
  split; [vm_compute; reflexivity|].
  split; [vm_compute; reflexivity|].
  vm_compute; discriminate.
Qed.



(** * Further properties of [transition_model] *)

Lemma getitem_absent {V : Type} (d : dict V) k :
  ~ In k (keys d) -> getitem d k = Raise KeyError.
Proof.
  induction d as [|[k' v'] d IH]; simpl; [reflexivity|].
  intros H; destruct (String.eqb k k') eqn:E.
  - apply String.eqb_eq in E; subst; tauto.
  - apply IH; tauto.
Qed.

(** X1. A current page that is not a key of the graph makes
    [transition_model] raise [KeyError], whatever the damping factor. *)
Theorem transition_model_missing_page (c : corpus) (page : string) (d : num) :
  ~ In page (keys c) ->
  transition_model c page d = Raise KeyError.
Proof.
  intros H; unfold transition_model.
  rewrite (getitem_absent c page H); reflexivity.
Qed.

Lemma transition_model_missing_page_witness :
  transition_model corpus_tail "D"%string (17 # 20) = Raise KeyError.
Proof.
  apply transition_model_missing_page.
  simpl; intuition discriminate.
Defined.

(** The loop over the links stops with [KeyError] at the first link that
    is not a key of [probability]. *)
Lemma add_shares_outside (d L : Q) (ks : list string) :
  ~ L == 0 ->
  forall (l : list string) (p : dict Q),
    keys p = ks ->
    ~ incl l ks ->
    for_in l
      (fun link probability =>
         old <- getitem probability link ;;
         inc <- truediv d L ;;
         Ok (setitem probability link (add old inc)))
      p
    = Raise KeyError.
Proof.
  intros HL; rewrite (truediv_ok d L HL).
  induction l as [|x l IH]; intros p Hk Hout.
  - exfalso; apply Hout; intros y [].
  - simpl; destruct (in_dec string_dec x ks) as [Hin|Hnin].
    + rewrite (rank_of_getitem p x) by (rewrite Hk; exact Hin).
      cbn [bind].
      apply IH.
      * rewrite keys_setitem; [exact Hk | rewrite Hk; exact Hin].
      * intros Hl; apply Hout; intros y [<-|Hy]; [exact Hin | apply Hl, Hy].
    + rewrite (getitem_absent p x) by (rewrite Hk; exact Hnin).
      reflexivity.
Qed.

(** X2. When the outbound set of the current page holds a link that is
    not a page of the graph, [transition_model] raises [KeyError]. *)
Theorem transition_model_link_outside_graph (c : corpus) (page : string)
  (d : num) (l : list string) :
  NoDup (keys c) ->
  getitem c page = Ok (PySet l) ->
  ~ incl l (keys c) ->
  transition_model c page d = Raise KeyError.
Proof.
  intros Hnd Hget Hout.
  rewrite (transition_model_unfold c page d (PySet l) Hnd Hget).
  assert (Hl : List.length l <> 0%nat).
  { destruct l; [|discriminate]. exfalso; apply Hout; intros y []. }
  cbn [links_len links_iter].
  destruct (Nat.eqb (List.length l) 0) eqn:E;
    [apply Nat.eqb_eq in E; contradiction|].
  apply (add_shares_outside d (of_nat (List.length l)) (keys c)).
  - apply of_nat_nonzero, Hl.
  - apply keys_const.
  - exact Hout.
Qed.

Lemma transition_model_link_outside_graph_witness :
  transition_model
    [("A"%string, PySet ["B"%string; "Z"%string]); ("B"%string, PySet [])]
    "A"%string (17 # 20)
  = Raise KeyError.
Proof.
  apply (transition_model_link_outside_graph _ _ _ ["B"%string; "Z"%string]).
  - sample_nodup.
  - reflexivity.
  - intros H; specialize (H "Z"%string); simpl in H; intuition discriminate.
Defined.

Lemma rank_of_const (x : Q) (ks : list string) q :
  In q ks -> rank_of (map (fun k => (k, x)) ks) q = x.
Proof.
  intros H; unfold rank_of.
  induction ks as [|k ks IH]; simpl; [destruct H|].
  destruct (String.eqb q k) eqn:E; [reflexivity|].
  apply IH; destruct H as [->|H]; [|exact H].
  rewrite String.eqb_refl in E; discriminate.
Qed.

Lemma mem_app x (l1 l2 : list string) : mem x (l1 ++ l2) = mem x l1 || mem x l2.
Proof. apply existsb_app. Qed.

Lemma mem_false x (l : list string) : mem x l = false <-> ~ In x l.
Proof.
  rewrite <- (mem_In x l); destruct (mem x l); split; congruence.
Qed.

(** What a page with links returns: the teleport share everywhere, plus
    the link share on the pages it links to. *)
Lemma transition_model_shares (c : corpus) page d lnk :
  Graph_wf c ->
  getitem c page = Ok lnk ->
  links_len c lnk <> 0%nat ->
  NoDup (links_iter c lnk) ->
  exists p,
    transition_model c page d = Ok p /\
    keys p = keys c /\
    forall q, In q (keys c) ->
      rank_of p q
      == (1 - d) / of_nat (len c)
         + (if links_contains c lnk q
            then d / of_nat (links_len c lnk) else 0).
Proof.
  intros Hwf Hget Hlen Hnd.
  assert (Hin : In page (keys c)) by apply (getitem_Ok_In _ _ _ Hget).
  pose proof (of_nat_nonzero _ (In_keys_nonempty c page Hin)) as HN.
  pose proof (of_nat_nonzero _ Hlen) as HL.
  rewrite (transition_model_unfold c page d lnk (proj1 Hwf) Hget).
  destruct (Nat.eqb (links_len c lnk) 0) eqn:E;
    [apply Nat.eqb_eq in E; contradiction|].
  set (L := of_nat (links_len c lnk)) in *.
  set (b := Qred (sub 1 d / of_nat (len c))).
  assert (Hb : b == (1 - d) / of_nat (len c)).
  { unfold b; rewrite Qred_correct, sub_spec; reflexivity. }
  destruct (for_in_invariant
              (fun done (p : dict Q) =>
                 keys p = keys c /\
                 forall q, In q (keys c) ->
                   rank_of p q == b + (if mem q done then d / L else 0))
              (links_iter c lnk)
              (fun link probability =>
                 old <- getitem probability link ;;
                 inc <- truediv d L ;;
                 Ok (setitem probability link (add old inc)))
              (map (fun k => (k, b)) (keys c))) as (p & Hp & Hk & Hval).
  - split; [apply keys_const|].
    intros q Hq; rewrite (rank_of_const b (keys c) q Hq); simpl; ring.
  - intros done x rest p E' (Hk & Hval).
    assert (Hx : In x (keys c)).
    { apply (Graph_wf_links c page lnk Hwf Hget).
      rewrite E'; apply in_or_app; right; left; reflexivity. }
    assert (Hxd : mem x done = false).
    { apply mem_false; rewrite E' in Hnd.
      apply NoDup_remove_2 in Hnd; intros H; apply Hnd, in_or_app; auto. }
    rewrite (rank_of_getitem p x) by (rewrite Hk; exact Hx).
    cbn [bind]; rewrite (truediv_ok d L HL); cbn [bind].
    eexists; split; [reflexivity|]; split.
    + rewrite keys_setitem; [exact Hk | rewrite Hk; exact Hx].
    + intros q Hq; rewrite mem_app.
      destruct (string_dec x q) as [<-|Hne].
      * rewrite rank_of_setitem_same, add_spec, Qred_correct, (Hval x Hx), Hxd.
        simpl; rewrite String.eqb_refl; simpl; ring.
      * rewrite rank_of_setitem_other by exact Hne.
        rewrite (Hval q Hq).
        assert (Hq' : mem q [x] = false).
        { apply mem_false; intros [H|[]]; congruence. }
        rewrite Hq', orb_false_r; reflexivity.
  - exists p; split; [exact Hp|]; split; [exact Hk|].
    intros q Hq; rewrite (Hval q Hq), Hb.
    destruct lnk; reflexivity.
Qed.

(** X3. For a page of a well-formed graph whose outbound set is not
    empty and lists no page twice, [transition_model] returns, for every
    page [q] of the graph, [(1-d)/N] plus [d/|L|] when the current page
    links to [q]. *)
Theorem transition_model_link_shares (c : corpus) (page : string) (d : num)
  (lnk : links) :
  Graph_wf c ->
  getitem c page = Ok lnk ->
  links_len c lnk <> 0%nat ->
  NoDup (links_iter c lnk) ->
  exists p,
    transition_model c page d = Ok p /\
    keys p = keys c /\
    forall q, In q (keys c) ->
      rank_of p q
      == (1 - d) / of_nat (len c)
         + (if links_contains c lnk q
            then d / of_nat (links_len c lnk) else 0).
Proof.
  intros Hwf Hget Hlen Hnd.
  destruct (transition_model_shares c page d lnk Hwf Hget Hlen Hnd)
    as (p & Hp & Hk & Hval).
  exists p; repeat split; assumption.
Qed.

Lemma transition_model_link_shares_witness :
  exists p,
    transition_model corpus_tail "A"%string (17 # 20) = Ok p /\
    keys p = keys corpus_tail /\
    forall q, In q (keys corpus_tail) ->
      rank_of p q
      == (1 - (17 # 20)) / of_nat (len corpus_tail)
         + (if links_contains corpus_tail (PySet ["B"%string]) q
            then (17 # 20) / of_nat (links_len corpus_tail (PySet ["B"%string]))
            else 0).
Proof.
  apply transition_model_link_shares.
  - sample_wf.
  - reflexivity.
  - discriminate.
  - sample_nodup.
Defined.

Lemma sum_nonneg (xs : list Q) : Forall (fun x => 0 <= x) xs -> 0 <= sum xs.
Proof.
  induction 1 as [|x xs Hx _ IH]; [unfold sum; simpl; apply Qle_refl|].
  rewrite sum_cons, <- (Qplus_0_l 0); apply Qplus_le_compat; assumption.
Qed.

Lemma le_sum (xs : list Q) x :
  Forall (fun y => 0 <= y) xs -> In x xs -> x <= sum xs.
Proof.
  induction 1 as [|y xs Hy Hall IH]; intros Hin; [destruct Hin|].
  rewrite sum_cons; destruct Hin as [->|Hin].
  - rewrite <- (Qplus_0_r x) at 1.
    apply Qplus_le_compat; [apply Qle_refl | apply sum_nonneg, Hall].
  - rewrite <- (Qplus_0_l x).
    apply Qplus_le_compat; [exact Hy | apply IH, Hin].
Qed.

(** X4. On a well-formed graph, with a damping factor of [0,1], every
    value of the distribution [transition_model] returns lies in
    [0,1]. *)
Theorem transition_model_probabilities (c : corpus) (page : string) (d : num) :
  Graph_wf c ->
  In page (keys c) ->
  0 <= d <= 1 ->
  exists p,
    transition_model c page d = Ok p /\
    Forall (fun x => 0 <= x <= 1) (values p).
Proof.
  intros Hwf Hin Hd.
  destruct (transition_model_distribution c page d Hwf Hin)
    as (p & Hp & _ & Hsum & Hpos).
  specialize (Hpos Hd).
  exists p; split; [exact Hp|].
  apply Forall_forall; intros x Hx; split.
  - rewrite Forall_forall in Hpos; apply Hpos, Hx.
  - rewrite <- Hsum; apply le_sum; assumption.
Qed.

Lemma transition_model_probabilities_witness :
  exists p,
    transition_model corpus_tail "B"%string (17 # 20) = Ok p /\
    Forall (fun x => 0 <= x <= 1) (values p).
Proof.
  apply transition_model_probabilities.
  - sample_wf.
  - simpl; auto.
  - split; discriminate.
Defined.

Lemma neutralise_wf (c : corpus) : Graph_wf c -> Graph_wf (neutralise c).
Proof.
  intros [Hnd Hall]; split; [rewrite keys_neutralise; exact Hnd|].
  unfold neutralise, neutralise_in.
  apply Forall_forall; intros kv Hkv.
  apply in_map_iff in Hkv; destruct Hkv as ([k v] & <- & Hin); simpl.
  rewrite Forall_forall in Hall; specialize (Hall (k, v) Hin); simpl in Hall.
  unfold links_ok in *; fold (neutralise_in c c); fold (neutralise c).
  unfold neutralised; destruct (Nat.eqb (links_len c v) 0).
  - simpl; apply incl_refl.
  - destruct v; simpl in *; rewrite keys_neutralise; [exact Hall | apply incl_refl].
Qed.

Lemma rank_of_absent (p : dict Q) q : ~ In q (keys p) -> rank_of p q = 0.
Proof.
  intros H; unfold rank_of; rewrite (getitem_absent p q H); reflexivity.
Qed.

(** A loop that adds one value to the entry of every key, in key order. *)
Lemma for_in_add_all (m : result Q) (inc b : Q) (ks : list string) :
  m = Ok inc ->
  forall p1 : dict Q,
    NoDup (keys p1 ++ ks) ->
    for_in ks
      (fun link probability =>
         old <- getitem probability link ;;
         i <- m ;;
         Ok (setitem probability link (add old i)))
      (p1 ++ map (fun k => (k, b)) ks)
    = Ok (p1 ++ map (fun k => (k, add b inc)) ks).
Proof.
  intros ->; induction ks as [|k ks IH]; intros p1 Hnd; [reflexivity|].
  assert (Hk : ~ In k (keys p1)).
  { apply NoDup_remove_2 in Hnd; intros H; apply Hnd, in_or_app; auto. }
  cbn [for_in map].
  rewrite (getitem_app p1 _ k Hk); cbn [getitem].
  rewrite String.eqb_refl; cbn [bind].
  rewrite (setitem_app p1 _ k _ Hk); cbn [setitem].
  rewrite String.eqb_refl.
  change (p1 ++ (k, add b inc) :: map (fun k0 => (k0, b)) ks)
    with (p1 ++ [(k, add b inc)] ++ map (fun k0 => (k0, b)) ks).
  rewrite app_assoc, IH.
  - rewrite <- app_assoc; reflexivity.
  - rewrite keys_app, <- app_assoc; exact Hnd.
Qed.

(** X5. The rewriting of dangling pages that [iterate_pagerank] leaves
    in the caller's graph changes how [transition_model] computes the
    row of a dangling page, and not, in exact arithmetic, its value. For
    a page with links the call on the rewritten graph returns the very
    same dictionary. For a dangling page the graph as [crawl] built it
    gives every page the quotient [1 / N]; the rewritten graph gives
    every page the sum of the two quotients [(1 - d) / N] and [d / N],
    which is the same number when nothing is rounded. *)
Theorem transition_model_after_rewriting (c : corpus) (page : string)
  (d : num) (v : links) :
  Graph_wf c ->
  getitem c page = Ok v ->
  exists p p',
    transition_model c page d = Ok p /\
    transition_model (neutralise c) page d = Ok p' /\
    keys p = keys c /\
    keys p' = keys c /\
    (links_len c v <> 0%nat -> p' = p) /\
    (links_len c v = 0%nat ->
     p = map (fun q => (q, Qred (1 / of_nat (len c)))) (keys c) /\
     p' = map (fun q => (q, add (Qred (sub 1 d / of_nat (len c)))
                              (Qred (d / of_nat (len c))))) (keys c)) /\
    forall q, rank_of p' q == rank_of p q.
Proof.
  intros Hwf Hget.
  assert (Hin : In page (keys c)) by apply (getitem_Ok_In _ _ _ Hget).
  pose proof (getitem_neutralise_in c c page v Hget) as Hget'.
  fold (neutralise c) in Hget'.
  pose proof (of_nat_nonzero _ (In_keys_nonempty c page Hin)) as HN.
  assert (Hnd' : NoDup (keys (neutralise c)))
    by (rewrite keys_neutralise; apply Hwf).
  destruct (Nat.eqb (links_len c v) 0) eqn:E.
  - (* dangling: one quotient before, two quotients and a sum after *)
    apply Nat.eqb_eq in E.
    unfold neutralised in Hget'; rewrite E in Hget'; cbn [Nat.eqb] in Hget'.
    exists (map (fun q => (q, Qred (1 / of_nat (len c)))) (keys c)),
      (map (fun q => (q, add (Qred (sub 1 d / of_nat (len c)))
                           (Qred (d / of_nat (len c))))) (keys c)).
    split.
    { rewrite (transition_model_unfold c page d v (proj1 Hwf) Hget), E.
      reflexivity. }
    split.
    { rewrite (transition_model_unfold (neutralise c) page d KeysView
                 Hnd' Hget').
      cbn [links_len links_iter]; rewrite len_neutralise, keys_neutralise.
      destruct (Nat.eqb (len c) 0) eqn:E0.
      { apply Nat.eqb_eq in E0.
        exfalso; apply (In_keys_nonempty c page Hin), E0. }
      apply (for_in_add_all (truediv d (of_nat (len c)))
               (Qred (d / of_nat (len c)))
               (Qred (sub 1 d / of_nat (len c))) (keys c)
               (truediv_ok d _ HN) []).
      apply Hwf. }
    split; [apply keys_const|]; split; [apply keys_const|].
    split; [intros H; congruence|].
    split; [intros _; split; reflexivity|].
    intros q; destruct (in_dec string_dec q (keys c)) as [Hq|Hq].
    + rewrite !(rank_of_const _ (keys c) q Hq).
      rewrite add_spec, !Qred_correct, sub_spec; field; exact HN.
    + rewrite !rank_of_absent; [reflexivity | |];
        rewrite keys_const; exact Hq.
  - (* not dangling: the very same computation *)
    apply Nat.eqb_neq in E.
    unfold neutralised in Hget'.
    rewrite (proj2 (Nat.eqb_neq _ _) E) in Hget'.
    destruct (transition_model_distribution c page d Hwf Hin)
      as (p & Hp & Hkp & _).
    assert (Hsame : transition_model (neutralise c) page d
                    = transition_model c page d).
    { rewrite (transition_model_unfold c page d v (proj1 Hwf) Hget).
      rewrite (transition_model_unfold (neutralise c) page d v Hnd' Hget').
      rewrite (links_len_same (neutralise c) c v (len_neutralise c)).
      rewrite len_neutralise, keys_neutralise.
      destruct v; simpl; [reflexivity|].
      rewrite keys_neutralise; reflexivity. }
    exists p, p; split; [exact Hp|]; split; [rewrite Hsame; exact Hp|].
    split; [exact Hkp|]; split; [exact Hkp|].
    split; [reflexivity|].
    split; [intros H; congruence | reflexivity].
Qed.

Lemma transition_model_after_rewriting_witness :
  exists p p',
    transition_model corpus_dangling "B"%string (17 # 20) = Ok p /\
    transition_model (neutralise corpus_dangling) "B"%string (17 # 20)
    = Ok p' /\
    keys p = keys corpus_dangling /\
    keys p' = keys corpus_dangling /\
    (links_len corpus_dangling (PySet []) <> 0%nat -> p' = p) /\
    (links_len corpus_dangling (PySet []) = 0%nat ->
     p = map (fun q => (q, Qred (1 / of_nat (len corpus_dangling))))
           (keys corpus_dangling) /\
     p' = map (fun q => (q, add (Qred (sub 1 (17 # 20)
                                       / of_nat (len corpus_dangling)))
                              (Qred ((17 # 20)
                                     / of_nat (len corpus_dangling)))))
            (keys corpus_dangling)) /\
    forall q, rank_of p' q == rank_of p q.
Proof.
  apply transition_model_after_rewriting.
  - sample_wf.
  - reflexivity.
Defined.

(** * Further properties of [sample_pagerank] *)

(** X6. Whenever [sample_pagerank] returns on a non-empty graph, every
    rank it returns lies in [0,1]. *)
Theorem sample_pagerank_ranks_in_unit_interval (U : nat -> Q) (c : corpus)
  (d : num) (n : Z) (r : dict num) :
  NoDup (keys c) ->
  sample_pagerank U c d n = Ok r ->
  Forall (fun x => 0 <= x <= 1) (values r).
Proof.
  intros Hnd Hr.
  destruct (sample_walk U c d n) as [samples|e] eqn:Hw;
    [|unfold sample_pagerank in Hr; rewrite Hw in Hr; discriminate].
  pose proof (sample_walk_nonempty U c d n samples Hw) as Hs.
  rewrite (sample_pagerank_unfold U c d n samples Hnd Hw Hs) in Hr.
  inversion Hr; subst r; clear Hr.
  rewrite values_visit_ratios.
  apply Forall_forall; intros x Hx; apply in_map_iff in Hx.
  destruct Hx as (k & <- & _).
  assert (HL : 0 < of_nat (List.length samples)).
  { apply of_nat_pos; destruct samples; [congruence | discriminate]. }
  rewrite Qred_correct; split.
  - apply Qle_shift_div_l; [exact HL|].
    rewrite Qmult_0_l; unfold of_nat.
    change 0 with (inject_Z 0); rewrite <- Zle_Qle; lia.
  - apply Qle_shift_div_r; [exact HL|].
    rewrite Qmult_1_l; unfold of_nat.
    rewrite <- Zle_Qle; apply inj_le, count_occ_bound.
Qed.

Lemma sample_pagerank_ranks_in_unit_interval_witness :
  Forall (fun x => 0 <= x <= 1)
    (values [("A"%string, 2 # 3); ("B"%string, 1 # 3); ("C"%string, 0)]).
Proof.
  apply (sample_pagerank_ranks_in_unit_interval variates corpus_tail
           (17 # 20) 2).
  - sample_nodup.
  - vm_compute; reflexivity.
Defined.

Lemma numpy_choice_negative_weight u (a : list string) (p : list Q) x :
  a <> [] ->
  List.length a = List.length p ->
  In x p -> x < 0 ->
  numpy_choice u a p = Raise ValueError.
Proof.
  intros Ha Hlen Hx Hneg; unfold numpy_choice.
  destruct (Nat.eqb (List.length a) 0) eqn:E0; [reflexivity|].
  rewrite (proj2 (Nat.eqb_eq _ _) Hlen); simpl.
  assert (H : existsb (fun y => ltb y 0) p = true).
  { apply existsb_exists; exists x; split; [exact Hx | apply ltb_lt, Hneg]. }
  rewrite H; reflexivity.
Qed.

(** X7. A damping factor above 1 is not refused on entry: on a graph
    where every page has links, but not to every page (as after [crawl],
    which strips self-links), and with [n >= 1], [sample_pagerank] fails
    inside the first transition, with the [ValueError] of
    [numpy.random.choice] on a negative weight. *)
Theorem sample_pagerank_damping_above_one (U : nat -> Q) (c : corpus)
  (d : num) (n : Z) :
  Graph_wf c ->
  c <> [] ->
  (forall page v,
      getitem c page = Ok v ->
      links_len c v <> 0%nat /\
      NoDup (links_iter c v) /\
      exists q, In q (keys c) /\ links_contains c v q = false) ->
  1 < d ->
  (1 <= n)%Z ->
  sample_pagerank U c d n = Raise ValueError.
Proof.
  intros Hwf Hne Hlinks Hd Hn.
  assert (Hk : keys c <> []) by (destruct c; [congruence | discriminate]).
  destruct (random_choice_In (U 0%nat) (keys c) Hk) as (first & Hf & Hin).
  destruct (getitem_In c first Hin) as (v & Hget).
  destruct (Hlinks first v Hget) as (Hlen & Hnd & q & Hq & Hqv).
  destruct (transition_model_shares c first d v Hwf Hget Hlen Hnd)
    as (p & Hp & Hkp & Hval).
  assert (Hneg : rank_of p q < 0).
  { rewrite (Hval q Hq), Hqv, Qplus_0_r.
    apply Qlt_shift_div_r; [apply of_nat_pos, (In_keys_nonempty c first Hin)|].
    rewrite Qmult_0_l; apply (proj1 (Qlt_minus_iff 1 d)) in Hd.
    apply Qlt_minus_iff; setoid_replace (0 + - (1 - d)) with (d + - 1) by ring.
    exact Hd. }
  unfold sample_pagerank, sample_walk; rewrite Hf; cbn [bind].
  destruct (Z.to_nat n) as [|m] eqn:En; [lia|].
  cbn [seq for_in nth_or_IndexError nth_error bind].
  rewrite Hp; cbn [bind].
  rewrite (numpy_choice_negative_weight _ (keys p) (values p) (rank_of p q)).
  - reflexivity.
  - rewrite Hkp; exact Hk.
  - unfold keys, values; rewrite !length_map; reflexivity.
  - apply (getitem_In_values p q), rank_of_getitem; rewrite Hkp; exact Hq.
  - exact Hneg.
Qed.

Lemma sample_pagerank_damping_above_one_witness :
  sample_pagerank variates corpus_tail 2 5 = Raise ValueError.
Proof.
  apply sample_pagerank_damping_above_one.
  - sample_wf.
  - discriminate.
  - intros page v Hget; simpl in Hget.
    destruct (String.eqb page "A") eqn:EA;
      [|destruct (String.eqb page "B") eqn:EB;
        [|destruct (String.eqb page "C") eqn:EC; [|discriminate]]];
      inversion Hget; subst v;
      (split; [discriminate|]); (split; [sample_nodup|]);
      exists "C"%string; split; simpl; auto.
  - reflexivity.
  - lia.
Defined.

(** * Further properties of [iterate_pagerank] *)

(** What the loop returns is the state after some number of passes. *)
Lemma while_true_some (algConst d : Q) (fuel : nat) :
  forall (c : corpus) (pr : dict Q) st,
    NoDup (keys c) -> keys pr = keys c ->
    while_true fuel algConst d c pr = Some (Ok st) ->
    exists k, run_passes (S k) algConst d (c, pr) = Ok st.
Proof.
  induction fuel as [|fuel IH]; intros c pr st Hnd Hpr; [discriminate|].
  destruct (one_pass_spec c pr algConst d Hnd Hpr) as (pr1 & Hpass & Hk1 & _).
  destruct (max_change_of_spec pr pr1) as (m & Hm & _); [congruence|].
  destruct (ltb m threshold) eqn:E.
  - rewrite (while_true_break fuel algConst d c _ pr pr1 m Hpass Hm E).
    intros H; inversion H; subst st.
    exists 0%nat; simpl; rewrite Hpass; reflexivity.
  - rewrite (while_true_step fuel algConst d c _ pr pr1 m Hpass Hm E).
    intros H; apply IH in H.
    + destruct H as (k & Hk); exists (S k).
      change (run_passes (S (S k)) algConst d (c, pr))
        with (st' <- one_pass algConst d (c, pr) ;;
              run_passes (S k) algConst d st').
      rewrite Hpass; exact Hk.
    + rewrite keys_neutralise; exact Hnd.
    + rewrite keys_neutralise; exact Hk1.
Qed.

(** A pass after which no rank has moved by the threshold ends the
    loop. *)
Lemma while_true_settled fuel (algConst d : Q) (c c1 : corpus)
  (pr pr1 : dict Q) :
  c <> [] -> keys pr = keys c -> keys pr1 = keys c ->
  one_pass algConst d (c, pr) = Ok (c1, pr1) ->
  (forall page, In page (keys c) ->
     Qabs (rank_of pr page - rank_of pr1 page) < threshold) ->
  while_true (S fuel) algConst d c pr = Some (Ok (c1, pr1)).
Proof.
  intros Hne Hk Hk1 Hpass Hsmall.
  destruct (max_change_of_spec pr pr1) as (m & Hm & _ & Hex); [congruence|].
  destruct Hex as (page & Hp & Hpage).
  { intros ->; destruct c; [congruence | discriminate]. }
  apply (while_true_break fuel algConst d c c1 pr pr1 m Hpass Hm).
  apply ltb_lt; rewrite Hpage; apply Hsmall; rewrite <- Hk1; exact Hp.
Qed.

(** X8. When [iterate_pagerank] returns, the returned dictionary has
    exactly the keys of the graph, in the graph's order. *)
Theorem iterate_pagerank_keys (fuel : nat) (c : corpus) (d : num)
  (c' : corpus) (pageRank : dict num) :
  NoDup (keys c) ->
  iterate_pagerank fuel c d = Some (Ok (c', pageRank)) ->
  keys pageRank = keys c.
Proof.
  intros Hnd Hrun; unfold iterate_pagerank in Hrun.
  destruct (iterate_init c d) as [[pr0 algConst]|e] eqn:Hinit; [|discriminate].
  pose proof (iterate_init_nonempty c d pr0 algConst Hinit) as Hne.
  destruct (iterate_init_ok c d Hnd Hne) as (x & a & Hinit' & _).
  rewrite Hinit in Hinit'; inversion Hinit'; subst pr0 algConst; clear Hinit'.
  apply while_true_some in Hrun; [|exact Hnd|apply keys_const].
  destruct Hrun as (k & Hk).
  destruct (run_passes_ok a d (S k) c _ Hnd (keys_const x (keys c)))
    as (c1 & pr1 & Hrun & _ & Hkeys).
  rewrite Hk in Hrun; inversion Hrun; subst; exact Hkeys.
Qed.

Lemma iterate_pagerank_keys_witness :
  keys [("A"%string, 1 # 2); ("B"%string, 1 # 2)] = keys corpus_dangling.
Proof.
  apply (iterate_pagerank_keys 1 corpus_dangling 0
           [("A"%string, PySet ["B"%string]); ("B"%string, KeysView)]).
  - sample_nodup.
  - vm_compute; reflexivity.
Defined.

Lemma incoming_nonneg (c : corpus) (f : string -> Q) p :
  (forall q, 0 <= f q) -> 0 <= incoming c f p.
Proof.
  intros Hf; unfold incoming.
  assert (G : forall l acc, 0 <= acc -> 0 <= fold_left (share c f p) l acc).
  { induction l as [|kv l IH]; intros acc Hacc; simpl; [exact Hacc|].
    apply IH; unfold share.
    destruct (mem p (effective c (snd kv))); [|exact Hacc].
    rewrite <- (Qplus_0_l 0); apply Qplus_le_compat; [exact Hacc|].
    apply Qmult_le_0_compat; [apply Hf|].
    apply Qinv_le_0_compat; unfold of_nat.
    change 0 with (inject_Z 0); rewrite <- Zle_Qle; lia. }
  apply G, Qle_refl.
Qed.

(** After a pass over non-negative ranks every rank is at least
    [algConst]. *)
Lemma one_pass_lower_bound (c : corpus) (pr : dict Q) (algConst d : Q) st :
  NoDup (keys c) -> keys pr = keys c ->
  0 <= algConst -> 0 <= d ->
  (forall q, 0 <= rank_of pr q) ->
  one_pass algConst d (c, pr) = Ok st ->
  forall p, In p (keys c) -> algConst <= rank_of (snd st) p.
Proof.
  intros Hnd Hpr Ha Hd Hpos Hst.
  destruct (one_pass_spec c pr algConst d Hnd Hpr) as (pr1 & Hpass & _ & Hval).
  rewrite Hst in Hpass; inversion Hpass; subst st; clear Hpass; cbn [snd].
  assert (G : forall n done p rest,
             List.length done = n -> keys c = done ++ p :: rest ->
             algConst <= rank_of pr1 p).
  { induction n as [n IH] using lt_wf_ind; intros done p rest Hn E.
    rewrite (Hval done p rest E).
    rewrite <- (Qplus_0_r algConst) at 1.
    apply Qplus_le_compat; [apply Qle_refl|].
    apply Qmult_le_0_compat; [exact Hd|].
    apply incoming_nonneg; intros q; unfold in_place_view.
    destruct (mem q done) eqn:Eq; [|apply Hpos].
    apply mem_In in Eq; apply in_split in Eq.
    destruct Eq as (d1 & d2 & Edone).
    apply Qle_trans with algConst; [exact Ha|].
    apply (IH (List.length d1)) with (done := d1) (rest := d2 ++ p :: rest).
    - rewrite <- Hn, Edone, length_app; simpl; lia.
    - reflexivity.
    - rewrite E, Edone, <- app_assoc; reflexivity. }
  intros p Hp; apply in_split in Hp; destruct Hp as (done & rest & E).
  apply (G (List.length done) done p rest eq_refl E).
Qed.

Lemma rank_of_nonneg_from (pr : dict Q) (ks : list string) (a : Q) :
  keys pr = ks -> 0 <= a ->
  (forall p, In p ks -> a <= rank_of pr p) ->
  forall q, 0 <= rank_of pr q.
Proof.
  intros Hk Ha H q; destruct (in_dec string_dec q ks) as [Hq|Hq].
  - apply Qle_trans with a; [exact Ha | apply H, Hq].
  - rewrite rank_of_absent; [apply Qle_refl | rewrite Hk; exact Hq].
Qed.

Lemma run_passes_lower_bound (algConst d : Q) (k : nat) :
  0 <= algConst -> 0 <= d ->
  forall (c : corpus) (pr : dict Q) st,
    NoDup (keys c) -> keys pr = keys c ->
    (forall q, 0 <= rank_of pr q) ->
    run_passes (S k) algConst d (c, pr) = Ok st ->
    forall p, In p (keys c) -> algConst <= rank_of (snd st) p.
Proof.
  intros Ha Hd; induction k as [|k IH]; intros c pr st Hnd Hpr Hpos Hrun.
  - simpl in Hrun.
    destruct (one_pass algConst d (c, pr)) as [st1|e] eqn:Hpass; [|discriminate].
    simpl in Hrun; inversion Hrun; subst st1.
    apply (one_pass_lower_bound c pr algConst d st Hnd Hpr Ha Hd Hpos Hpass).
  - change (run_passes (S (S k)) algConst d (c, pr))
      with (st' <- one_pass algConst d (c, pr) ;;
            run_passes (S k) algConst d st') in Hrun.
    destruct (one_pass_spec c pr algConst d Hnd Hpr) as (pr1 & Hpass & Hk1 & _).
    pose proof (one_pass_lower_bound c pr algConst d _ Hnd Hpr Ha Hd Hpos Hpass)
      as Hlow; cbn [snd] in Hlow.
    rewrite Hpass in Hrun; cbn [bind] in Hrun.
    intros p Hp; rewrite <- (keys_neutralise c) in Hp.
    apply (IH (neutralise c) pr1 st); auto.
    + rewrite keys_neutralise; exact Hnd.
    + rewrite keys_neutralise; exact Hk1.
    + apply (rank_of_nonneg_from pr1 (keys c) algConst Hk1 Ha Hlow).
Qed.

(** X9. With a damping factor of [0,1], every rank [iterate_pagerank]
    returns is at least the teleport share [(1-d)/N], hence
    non-negative. *)
Theorem iterate_pagerank_ranks_lower_bound (fuel : nat) (c : corpus)
  (d : num) (c' : corpus) (pageRank : dict num) :
  NoDup (keys c) ->
  0 <= d <= 1 ->
  iterate_pagerank fuel c d = Some (Ok (c', pageRank)) ->
  forall page, In page (keys c) ->
    0 <= (1 - d) / of_nat (len c) /\
    (1 - d) / of_nat (len c) <= rank_of pageRank page.
Proof.
  intros Hnd [Hd0 Hd1] Hrun page Hpage; unfold iterate_pagerank in Hrun.
  destruct (iterate_init c d) as [[pr0 algConst]|e] eqn:Hinit; [|discriminate].
  pose proof (iterate_init_nonempty c d pr0 algConst Hinit) as Hne.
  destruct (iterate_init_ok c d Hnd Hne) as (x & a & Hinit' & Hx & Ha).
  rewrite Hinit in Hinit'; inversion Hinit'; subst pr0 algConst; clear Hinit'.
  assert (HN : 0 < of_nat (len c)).
  { apply of_nat_pos; destruct c; [congruence | discriminate]. }
  assert (Ha0 : 0 <= a).
  { rewrite Ha; apply Qle_shift_div_l; [exact HN|].
    rewrite Qmult_0_l; apply (proj1 (Qle_minus_iff d 1) Hd1). }
  split; [rewrite <- Ha; exact Ha0|].
  apply while_true_some in Hrun; [|exact Hnd|apply keys_const].
  destruct Hrun as (k & Hk).
  rewrite <- Ha.
  apply (run_passes_lower_bound a d k Ha0 Hd0 c _ (c', pageRank) Hnd
           (keys_const x (keys c))); [|exact Hk|exact Hpage].
  intros q; destruct (in_dec string_dec q (keys c)) as [Hq|Hq].
  - rewrite (rank_of_const x (keys c) q Hq), Hx.
    apply Qle_shift_div_l; [exact HN|]; rewrite Qmult_0_l; discriminate.
  - rewrite rank_of_absent; [apply Qle_refl | rewrite keys_const; exact Hq].
Qed.

Lemma iterate_pagerank_ranks_lower_bound_witness :
  0 <= (1 - 0) / of_nat (len corpus_dangling) /\
  (1 - 0) / of_nat (len corpus_dangling)
  <= rank_of [("A"%string, 1 # 2); ("B"%string, 1 # 2)] "A"%string.
Proof.
  apply (iterate_pagerank_ranks_lower_bound 1 corpus_dangling 0
           [("A"%string, PySet ["B"%string]); ("B"%string, KeysView)]).
  - sample_nodup.
  - split; discriminate.
  - vm_compute; reflexivity.
  - simpl; auto.
Defined.

(** X10. With a damping factor of 0 the loop ends after its first pass,
    on any non-empty graph: every page keeps the uniform rank [1/N]. *)
Theorem iterate_pagerank_no_damping (fuel : nat) (c : corpus) :
  NoDup (keys c) ->
  c <> [] ->
  exists pageRank,
    iterate_pagerank (S fuel) c 0 = Some (Ok (neutralise c, pageRank)) /\
    keys pageRank = keys c /\
    forall page, In page (keys c) ->
      rank_of pageRank page == 1 / of_nat (len c).
Proof.
  intros Hnd Hne.
  destruct (iterate_init_ok c 0 Hnd Hne) as (x & a & Hinit & Hx & Ha).
  set (pr0 := map (fun k => (k, x)) (keys c) : dict Q) in *.
  assert (Hk0 : keys pr0 = keys c) by apply keys_const.
  destruct (one_pass_spec c pr0 a 0 Hnd Hk0) as (pr1 & Hpass & Hk1 & Hval).
  assert (Hrank : forall page, In page (keys c) ->
                    rank_of pr1 page == 1 / of_nat (len c)).
  { intros page Hp; apply in_split in Hp; destruct Hp as (done & rest & E).
    rewrite (Hval done page rest E), Ha; unfold Qminus, Qdiv; ring. }
  exists pr1; split; [|split; [exact Hk1 | exact Hrank]].
  unfold iterate_pagerank; rewrite Hinit.
  apply (while_true_settled fuel a 0 c (neutralise c) pr0 pr1 Hne Hk0 Hk1 Hpass).
  intros page Hp.
  rewrite (Hrank page Hp); unfold pr0.
  rewrite (rank_of_const x (keys c) page Hp), Hx.
  setoid_replace (1 / of_nat (len c) - 1 / of_nat (len c)) with 0 by ring.
  reflexivity.
Qed.

Lemma iterate_pagerank_no_damping_witness :
  exists pageRank,
    iterate_pagerank 1 corpus_tail 0
    = Some (Ok (neutralise corpus_tail, pageRank)) /\
    keys pageRank = keys corpus_tail /\
    forall page, In page (keys corpus_tail) ->
      rank_of pageRank page == 1 / of_nat (len corpus_tail).
Proof.
  apply iterate_pagerank_no_damping.
  - sample_nodup.
  - discriminate.
Defined.

Lemma getitem_neutralise_inv (c : corpus) page w :
  getitem (neutralise c) page = Ok w ->
  exists v, getitem c page = Ok v /\ w = neutralised c v.
Proof.
  intros H.
  assert (Hin : In page (keys c)).
  { rewrite <- (keys_neutralise c); apply (getitem_Ok_In _ _ _ H). }
  destruct (getitem_In c page Hin) as (v & Hv).
  exists v; split; [exact Hv|].
  pose proof (getitem_neutralise_in c c page v Hv) as H'.
  fold (neutralise c) in H'; congruence.
Qed.

Lemma iterate_pagerank_corpus (fuel : nat) (c : corpus) d c' pr :
  NoDup (keys c) ->
  iterate_pagerank fuel c d = Some (Ok (c', pr)) ->
  c' = neutralise c.
Proof.
  intros Hnd Hrun; unfold iterate_pagerank in Hrun.
  destruct (iterate_init c d) as [[pr0 algConst]|e] eqn:Hinit; [|discriminate].
  pose proof (iterate_init_nonempty c d pr0 algConst Hinit) as Hne.
  destruct (iterate_init_ok c d Hnd Hne) as (x & a & Hinit' & _).
  rewrite Hinit in Hinit'; inversion Hinit'; subst pr0 algConst; clear Hinit'.
  apply (while_true_corpus a d fuel c c' _ pr Hnd (keys_const x (keys c)) Hrun).
Qed.

(** X11. After [iterate_pagerank] has returned, no page of the caller's
    graph has an empty outbound set any more, and a further call, with
    any damping factor, leaves the graph as the first call left it. *)
Theorem iterate_pagerank_rewrites_once (fuel : nat) (c : corpus) (d : num)
  (c' : corpus) (pageRank : dict num) :
  NoDup (keys c) ->
  iterate_pagerank fuel c d = Some (Ok (c', pageRank)) ->
  (forall page v, getitem c' page = Ok v -> links_len c' v <> 0%nat) /\
  (forall fuel' d' c'' pageRank',
      iterate_pagerank fuel' c' d' = Some (Ok (c'', pageRank')) -> c'' = c').
Proof.
  intros Hnd Hrun.
  apply iterate_pagerank_corpus in Hrun; [|exact Hnd]; subst c'.
  split.
  - intros page w Hw.
    destruct (getitem_neutralise_inv c page w Hw) as (v & Hv & ->).
    rewrite (links_len_neutralised c (neutralise c) v (len_neutralise c)).
    apply effective_nonempty.
    apply (In_keys_nonempty c page), (getitem_Ok_In _ _ _ Hv).
  - intros fuel' d' c'' pr' Hrun'.
    apply iterate_pagerank_corpus in Hrun'.
    + rewrite Hrun'; apply neutralise_twice.
    + rewrite keys_neutralise; exact Hnd.
Qed.

Lemma iterate_pagerank_rewrites_once_witness :
  (forall page v,
      getitem [("A"%string, PySet ["B"%string]); ("B"%string, KeysView)] page
      = Ok v ->
      links_len [("A"%string, PySet ["B"%string]); ("B"%string, KeysView)] v
      <> 0%nat) /\
  (forall fuel' d' c'' pageRank',
      iterate_pagerank fuel'
        [("A"%string, PySet ["B"%string]); ("B"%string, KeysView)] d'
      = Some (Ok (c'', pageRank')) ->
      c'' = [("A"%string, PySet ["B"%string]); ("B"%string, KeysView)]).
Proof.
  apply (iterate_pagerank_rewrites_once 1 corpus_dangling 0 _
           [("A"%string, 1 # 2); ("B"%string, 1 # 2)]).
  - sample_nodup.
  - vm_compute; reflexivity.
Defined.

(** X12. On a graph that consists of one page without links,
    [iterate_pagerank] returns after its first pass, for every damping
    factor of [0,1], and gives the page rank 1. *)
Theorem iterate_pagerank_single_page (fuel : nat) (page : string) (d : num) :
  0 <= d <= 1 ->
  exists pageRank,
    iterate_pagerank (S fuel) [(page, PySet [])] d
    = Some (Ok ([(page, KeysView)], pageRank)) /\
    keys pageRank = [page] /\
    rank_of pageRank page == 1.
Proof.
  intros _.
  set (c := [(page, PySet [])] : corpus).
  assert (Hnd : NoDup (keys c)) by (repeat constructor; simpl; tauto).
  assert (Hne : c <> []) by discriminate.
  destruct (iterate_init_ok c d Hnd Hne) as (x & a & Hinit & Hx & Ha).
  set (pr0 := map (fun k => (k, x)) (keys c) : dict Q) in *.
  assert (Hk0 : keys pr0 = keys c) by apply keys_const.
  destruct (one_pass_spec c pr0 a d Hnd Hk0) as (pr1 & Hpass & Hk1 & Hval).
  assert (Hx1 : rank_of pr0 page == 1).
  { unfold pr0; rewrite (rank_of_const x (keys c) page (or_introl eq_refl)), Hx.
    reflexivity. }
  assert (Hrank : rank_of pr1 page == 1).
  { rewrite (Hval [] page [] eq_refl), Ha.
    unfold incoming, share, in_place_view; simpl.
    rewrite String.eqb_refl; simpl; rewrite Hx1.
    change (of_nat 1) with 1; field. }
  exists pr1; split; [|split; [exact Hk1 | exact Hrank]].
  unfold iterate_pagerank; fold c; rewrite Hinit.
  change [(page, KeysView)] with (neutralise c).
  apply (while_true_settled fuel a d c (neutralise c) pr0 pr1 Hne Hk0 Hk1 Hpass).
  intros q [<-|[]].
  rewrite Hx1, Hrank; reflexivity.
Qed.

Lemma iterate_pagerank_single_page_witness :
  exists pageRank,
    iterate_pagerank 1 [("A"%string, PySet [])] (17 # 20)
    = Some (Ok ([("A"%string, KeysView)], pageRank)) /\
    keys pageRank = ["A"%string] /\
    rank_of pageRank "A"%string == 1.
Proof.
  apply (iterate_pagerank_single_page 0 "A"%string (17 # 20)).
  split; discriminate.
Defined.

(** * One page *)

Lemma numpy_choice_single u (page : string) :
  numpy_choice u [page] [1] = Ok page.
Proof.
  unfold numpy_choice; simpl.
  destruct (Qle_bool (0 + 1) (frac u)) eqn:E; [|reflexivity].
  apply Qle_bool_iff in E; exfalso.
  apply (Qlt_not_le _ _ (proj2 (frac_range u))).
  setoid_replace 1 with (0 + 1) by ring; exact E.
Qed.

Lemma count_all_equal (page : string) (samples : list string) :
  Forall (eq page) samples -> count samples page = List.length samples.
Proof.
  unfold count; induction 1 as [|x samples <- _ IH]; simpl; [reflexivity|].
  destruct (string_dec page page); [rewrite IH; reflexivity | congruence].
Qed.

(** X13. On a graph that consists of one page without links,
    [sample_pagerank] returns for every sequence of variates, every
    damping factor and every sample count, and gives the page rank 1. *)
Theorem sample_pagerank_single_page (U : nat -> Q) (page : string) (d : num)
  (n : Z) :
  exists r,
    sample_pagerank U [(page, PySet [])] d n = Ok [(page, r)] /\ r == 1.
Proof.
  set (c := [(page, PySet [])] : corpus).
  assert (Hnd : NoDup (keys c)) by (repeat constructor; simpl; tauto).
  assert (Hw : exists samples,
             sample_walk U c d n = Ok samples /\
             samples <> [] /\ Forall (eq page) samples).
  { unfold sample_walk.
    destruct (random_choice_In (U 0%nat) (keys c)) as (first & Hf & Hin);
      [discriminate|].
    destruct Hin as [<-|[]]; rewrite Hf; cbn [bind].
    destruct (for_in_invariant
                (fun (done : list nat) (samples : list string) =>
                   List.length samples = S (List.length done) /\
                   Forall (eq page) samples)
                (seq 0 (Z.to_nat n))
                (fun i samples =>
                   cur <- nth_or_IndexError samples i ;;
                   probability <- transition_model c cur d ;;
                   nextPage <- numpy_choice (U (S i)) (keys probability)
                                 (values probability) ;;
                   Ok (samples ++ [nextPage]))
                [page]) as (samples & Hs & Hl & Hall).
    - split; [reflexivity | repeat constructor].
    - intros done i rest samples E (Hl & Hall).
      apply seq_split_index in E; subst i.
      destruct (nth_or_IndexError_In samples (List.length done))
        as (cur & Hc & Hcur); [lia|].
      rewrite Hc; cbn [bind].
      rewrite Forall_forall in Hall; rewrite <- (Hall cur Hcur).
      replace (transition_model c page d) with (@Ok (dict Q) [(page, 1)])
        by (unfold transition_model, c; simpl; rewrite String.eqb_refl;
            reflexivity).
      cbn [bind keys values map fst snd].
      rewrite numpy_choice_single; cbn [bind].
      eexists; split; [reflexivity|]; split.
      + rewrite !length_app; simpl; lia.
      + apply Forall_app; split; [apply Forall_forall; exact Hall|].
        repeat constructor.
    - exists samples; split; [exact Hs|]; split; [|exact Hall].
      destruct samples; [discriminate | discriminate]. }
  destruct Hw as (samples & Hw & Hs & Hall).
  rewrite (sample_pagerank_unfold U c d n samples Hnd Hw Hs).
  exists (Qred (of_nat (count samples page) / of_nat (List.length samples))).
  split; [reflexivity|].
  rewrite Qred_correct, (count_all_equal page samples Hall).
  field; apply of_nat_nonzero.
  destruct samples; [congruence | discriminate].
Qed.

(** * [crawl] *)

Lemma NoDup_keys_setitem {V : Type} (d : dict V) k v :
  NoDup (keys d) -> NoDup (keys (setitem d k v)).
Proof.
  intros Hnd; destruct (in_dec string_dec k (keys d)) as [Hin|Hnin].
  - rewrite keys_setitem; assumption.
  - assert (E : keys (setitem d k v) = keys d ++ [k]).
    { clear Hnd; induction d as [|[k' v'] d IH]; simpl; [reflexivity|].
      destruct (String.eqb k k') eqn:Ek; simpl.
      - apply String.eqb_eq in Ek; subst; simpl in Hnin; tauto.
      - f_equal; apply IH; simpl in Hnin; tauto. }
    rewrite E; apply NoDup_app; [exact Hnd | repeat constructor; simpl; tauto|].
    intros x Hx [<-|[]]; contradiction.
Qed.

Lemma In_setitem {V : Type} (d : dict V) k v kv :
  In kv (setitem d k v) -> kv = (k, v) \/ In kv d.
Proof.
  induction d as [|[k' v'] d IH]; simpl; [intros [<-|[]]; auto|].
  destruct (String.eqb k k') eqn:E; simpl.
  - apply String.eqb_eq in E; subst k'.
    intros [<-|H]; auto.
  - intros [<-|H]; auto.
    destruct (IH H); auto.
Qed.

Section CrawlFacts.
Variable findall : string -> list string.

Lemma links_in_corpus_same (c1 c2 : corpus) v :
  keys c1 = keys c2 -> links_in_corpus c1 v = links_in_corpus c2 v.
Proof.
  intros H; unfold links_in_corpus; rewrite H.
  destruct v; simpl; [reflexivity | rewrite H; reflexivity].
Qed.

Lemma keys_keep_links (c : corpus) (l : list (string * links)) :
  keys (map (keep_links c) l) = keys l.
Proof.
  unfold keys; rewrite map_map; reflexivity.
Qed.

(** The first loop, on a listing without repeated names: one entry per
    [.html] file, in the order of the listing, unless one of these files
    cannot be read. *)
Lemma crawl_read_spec (listing : list (string * file)) :
  forall pages : corpus,
    NoDup (keys pages ++ map fst listing) ->
    for_in listing
      (fun entry pages =>
         let '(filename, f) := entry in
         if negb (is_html filename) then Ok pages
         else
           contents <- f ;;
           Ok (setitem pages filename
                 (PySet (links_of findall filename contents))))
      pages
    = (files <- html_files listing ;;
       Ok (pages ++ map (read_entry findall) files)).
Proof.
  induction listing as [|[filename f] listing IH]; intros pages Hnd; simpl.
  - rewrite app_nil_r; reflexivity.
  - assert (Hk : ~ In filename (keys pages)).
    { apply NoDup_remove_2 in Hnd; intros H; apply Hnd, in_or_app; auto. }
    destruct (is_html filename); simpl.
    + destruct f as [contents|e]; simpl; [|reflexivity].
      rewrite <- (app_nil_r pages) at 1.
      rewrite (setitem_app pages [] filename _ Hk); simpl.
      rewrite IH by (rewrite keys_app, <- app_assoc; exact Hnd).
      destruct (html_files listing) as [files|e]; simpl; [|reflexivity].
      rewrite <- app_assoc; reflexivity.
    + apply IH; apply NoDup_remove_1 in Hnd; exact Hnd.
Qed.

(** Whatever the listing, the first loop raises what the first [.html]
    entry that cannot be read raises, and nothing else. *)
Lemma crawl_read_raises (listing : list (string * file)) :
  forall pages : corpus,
    match html_files listing with
    | Raise e =>
        for_in listing
          (fun entry pages =>
             let '(filename, f) := entry in
             if negb (is_html filename) then Ok pages
             else
               contents <- f ;;
               Ok (setitem pages filename
                     (PySet (links_of findall filename contents))))
          pages
        = Raise e
    | Ok _ =>
        exists pages',
          for_in listing
            (fun entry pages =>
               let '(filename, f) := entry in
               if negb (is_html filename) then Ok pages
               else
                 contents <- f ;;
                 Ok (setitem pages filename
                       (PySet (links_of findall filename contents))))
            pages
          = Ok pages'
    end.
Proof.
  induction listing as [|[filename f] listing IH]; intros pages; simpl.
  - exists pages; reflexivity.
  - destruct (is_html filename); simpl; [|apply IH].
    destruct f as [contents|e]; simpl; [|reflexivity].
    specialize (IH (setitem pages filename
                      (PySet (links_of findall filename contents)))).
    destruct (html_files listing) as [files|e]; simpl; exact IH.
Qed.

(** The second loop: every entry is rewritten in place. *)
Lemma crawl_keep_spec (pages : corpus) :
  NoDup (keys pages) ->
  for_in (keys pages)
    (fun filename pages =>
       v <- getitem pages filename ;;
       Ok (setitem pages filename (PySet (links_in_corpus pages v))))
    pages
  = Ok (map (keep_links pages) pages).
Proof.
  intros Hnd.
  assert (G : forall back front,
             pages = front ++ back ->
             for_in (keys back)
               (fun filename pages =>
                  v <- getitem pages filename ;;
                  Ok (setitem pages filename (PySet (links_in_corpus pages v))))
               (map (keep_links pages) front ++ back)
             = Ok (map (keep_links pages) front ++ map (keep_links pages) back)).
  { induction back as [|[k v] back IH]; intros front E; [reflexivity|].
    change (keys ((k, v) :: back)) with (k :: keys back); cbn [for_in].
    assert (Hk : ~ In k (keys (map (keep_links pages) front))).
    { rewrite keys_keep_links; intros H.
      rewrite E, keys_app in Hnd; simpl in Hnd.
      apply NoDup_remove_2 in Hnd; apply Hnd, in_or_app; auto. }
    rewrite (getitem_app _ _ k Hk); simpl; rewrite String.eqb_refl.
    cbn [bind].
    rewrite (setitem_app _ _ k _ Hk); simpl; rewrite String.eqb_refl.
    rewrite (links_in_corpus_same _ pages v).
    - replace (map (keep_links pages) front
               ++ (k, PySet (links_in_corpus pages v)) :: back)
        with (map (keep_links pages) (front ++ [(k, v)]) ++ back)
        by (rewrite map_app, <- app_assoc; reflexivity).
      rewrite (IH (front ++ [(k, v)])) by (rewrite <- app_assoc; exact E).
      rewrite map_app, <- app_assoc; reflexivity.
    - rewrite keys_app, keys_keep_links, <- keys_app, <- E; reflexivity. }
  exact (G pages [] eq_refl).
Qed.

End CrawlFacts.

Lemma filter_map_fst {B : Type} (f : string -> bool) (l : list (string * B)) :
  map fst (filter (fun e => f (fst e)) l) = filter f (map fst l).
Proof.
  induction l as [|[k v] l IH]; simpl; [reflexivity|].
  destruct (f k); simpl; rewrite IH; reflexivity.
Qed.

Lemma getitem_Ok_In_pair {V : Type} (d : dict V) k v :
  getitem d k = Ok v -> In (k, v) d.
Proof.
  induction d as [|[k' v'] d IH]; simpl; [discriminate|].
  destruct (String.eqb k k') eqn:E.
  - apply String.eqb_eq in E; subst k'; intros H; inversion H; auto.
  - auto.
Qed.

Lemma getitem_keep_links (c : corpus) (l : list (string * links)) k v :
  getitem l k = Ok v ->
  getitem (map (keep_links c) l) k = Ok (PySet (links_in_corpus c v)).
Proof.
  induction l as [|[k' v'] l IH]; simpl; [discriminate|].
  destruct (String.eqb k k'); [|exact IH].
  intros H; inversion H; reflexivity.
Qed.

(** ** The [.html] entries of a listing *)

Lemma html_files_names (listing : list (string * file)) :
  forall files,
    html_files listing = Ok files ->
    map fst files = filter is_html (map fst listing).
Proof.
  induction listing as [|[filename f] listing IH]; intros files; simpl.
  - intros H; inversion H; reflexivity.
  - destruct (is_html filename); [|apply IH].
    destruct f as [contents|e]; simpl; [|discriminate].
    destruct (html_files listing) as [files'|e]; simpl; [|discriminate].
    intros H; inversion H; subst; simpl; rewrite (IH files' eq_refl).
    reflexivity.
Qed.

Lemma html_files_In (listing : list (string * file)) :
  forall files,
    html_files listing = Ok files ->
    forall filename contents,
      In (filename, contents) files <->
      In (filename, Ok contents) listing /\ is_html filename = true.
Proof.
  induction listing as [|[name f] listing IH]; intros files; simpl.
  - intros H; inversion H; simpl; tauto.
  - destruct (is_html name) eqn:E.
    + destruct f as [contents'|e]; simpl; [|discriminate].
      destruct (html_files listing) as [files'|e]; simpl; [|discriminate].
      intros H; inversion H; subst; clear H.
      intros filename contents; simpl; rewrite (IH files' eq_refl).
      split.
      * intros [H|[H1 H2]]; [inversion H; subst; auto | auto].
      * intros [[H|H] Hh]; [inversion H; subst; auto | auto].
    + intros H filename contents; rewrite (IH files H).
      split; [intros [H1 H2]; auto|].
      intros [[H1|H1] Hh]; [|auto].
      inversion H1; subst; congruence.
Qed.

Lemma html_files_readable (listing : list (string * file)) :
  Forall readable_html listing -> exists files, html_files listing = Ok files.
Proof.
  induction 1 as [|[filename f] listing Hr _ IH]; simpl.
  - exists []; reflexivity.
  - destruct IH as (files & ->).
    destruct (is_html filename) eqn:E; [|exists files; reflexivity].
    destruct (Hr E) as (contents & Hf); simpl in Hf; subst f; simpl.
    eexists; reflexivity.
Qed.

Lemma html_files_none (listing : list (string * file)) :
  filter is_html (map fst listing) = [] -> html_files listing = Ok [].
Proof.
  induction listing as [|[filename f] listing IH]; simpl; [reflexivity|].
  destruct (is_html filename); [discriminate | exact IH].
Qed.

(** [html_files] raises what the first [.html] entry that cannot be read
    raises. *)
Lemma html_files_raise (listing : list (string * file)) (e : exn) :
  html_files listing = Raise e <->
  exists done filename rest,
    listing = done ++ (filename, Raise e) :: rest /\
    is_html filename = true /\
    Forall readable_html done.
Proof.
  split.
  - induction listing as [|[name f] listing IH]; simpl; [discriminate|].
    destruct (is_html name) eqn:E.
    + destruct f as [contents|e']; simpl.
      * destruct (html_files listing) as [files|e'] eqn:Hf; simpl;
          [discriminate|].
        intros H; inversion H; subst e'.
        destruct (IH eq_refl) as (done & filename & rest & -> & Hh & Hr).
        exists ((name, Ok contents) :: done), filename, rest.
        split; [reflexivity|]; split; [exact Hh|].
        apply Forall_cons; [intros _; exists contents; reflexivity | exact Hr].
      * intros H; inversion H; subst e'.
        exists [], name, listing; repeat split; [exact E | apply Forall_nil].
    + intros H.
      destruct (IH H) as (done & filename & rest & -> & Hh & Hr).
      exists ((name, f) :: done), filename, rest.
      split; [reflexivity|]; split; [exact Hh|].
      apply Forall_cons; [|exact Hr].
      intros H'; simpl in H'; congruence.
  - intros (done & filename & rest & -> & Hh & Hr).
    induction Hr as [|[name f] done Hn _ IH]; simpl.
    + rewrite Hh; reflexivity.
    + rewrite IH.
      destruct (is_html name) eqn:E; [|reflexivity].
      destruct (Hn E) as (contents & Hf); simpl in Hf; subst f; reflexivity.
Qed.

(** ** The graph [crawl] returns *)

Lemma crawl_on_listing (findall : string -> list string)
  (listing : list (string * file)) (files : list (string * string)) :
  NoDup (map fst listing) ->
  html_files listing = Ok files ->
  let pages := map (read_entry findall) files in
  crawl findall (Ok listing) = Ok (map (keep_links pages) pages) /\
  keys pages = filter is_html (map fst listing) /\
  NoDup (keys pages).
Proof.
  intros Hnd Hfiles pages.
  assert (Hk : keys pages = filter is_html (map fst listing)).
  { unfold pages, keys, read_entry; rewrite map_map; simpl.
    apply (html_files_names listing files Hfiles). }
  assert (Hndp : NoDup (keys pages)) by (rewrite Hk; apply NoDup_filter, Hnd).
  split; [|split; assumption].
  unfold crawl; cbn [bind].
  rewrite (crawl_read_spec findall listing []) by exact Hnd.
  rewrite Hfiles; cbn [bind app]; fold pages.
  apply (crawl_keep_spec pages Hndp).
Qed.

(** X14. On a directory whose listing names no file twice and whose
    [.html] entries can all be read, [crawl] returns a graph whose pages
    are the files named [*.html], in the order of the listing; every
    other entry is left out, and is not even opened. *)
Theorem crawl_pages (findall : string -> list string)
  (listing : list (string * file)) :
  NoDup (map fst listing) ->
  Forall readable_html listing ->
  exists c,
    crawl findall (Ok listing) = Ok c /\
    keys c = filter is_html (map fst listing).
Proof.
  intros Hnd Hread.
  destruct (html_files_readable listing Hread) as (files & Hfiles).
  destruct (crawl_on_listing findall listing files Hnd Hfiles) as (Hc & Hk & _).
  eexists; split; [exact Hc|].
  rewrite keys_keep_links; exact Hk.
Qed.

Lemma crawl_pages_witness :
  exists c,
    crawl words (Ok sample_directory) = Ok c /\
    keys c = filter is_html (map fst sample_directory).
Proof.
  apply crawl_pages; [sample_nodup|].
  repeat (apply Forall_cons;
          [intros H; try discriminate H; eexists; reflexivity|]).
  apply Forall_nil.
Defined.

(** X15. On such a directory, the outbound set [crawl] stores for an
    [.html] file lists no target twice and holds exactly the targets
    found in the file that are not the file itself and are [.html]
    files of the directory. *)
Theorem crawl_links (findall : string -> list string)
  (listing : list (string * file)) (filename contents : string) :
  NoDup (map fst listing) ->
  Forall readable_html listing ->
  In (filename, Ok contents) listing ->
  is_html filename = true ->
  exists c l,
    crawl findall (Ok listing) = Ok c /\
    getitem c filename = Ok (PySet l) /\
    NoDup l /\
    forall x,
      In x l <->
      In x (findall contents) /\ x <> filename /\
      is_html x = true /\ In x (map fst listing).
Proof.
  intros Hnd Hread Hin Hhtml.
  destruct (html_files_readable listing Hread) as (files & Hfiles).
  destruct (crawl_on_listing findall listing files Hnd Hfiles)
    as (Hc & Hk & Hndp).
  set (pages := map (read_entry findall) files) in *.
  assert (Hget : getitem pages filename
                 = Ok (PySet (links_of findall filename contents))).
  { apply (In_getitem pages _ _ Hndp).
    unfold pages; apply in_map_iff.
    exists (filename, contents); split; [reflexivity|].
    apply (html_files_In listing files Hfiles); split; assumption. }
  exists (map (keep_links pages) pages).
  exists (links_in_corpus pages (PySet (links_of findall filename contents))).
  split; [exact Hc|]; split; [|split].
  - apply (getitem_keep_links pages pages filename _ Hget).
  - apply NoDup_nodup.
  - intros x; unfold links_in_corpus, links_of; simpl.
    rewrite nodup_In, filter_In, mem_In, Hk, filter_In.
    split.
    + intros (Hrem & Hxin & Hxhtml).
      apply in_remove in Hrem; destruct Hrem as (Hx & Hne).
      apply nodup_In in Hx; auto.
    + intros (Hx & Hne & Hxhtml & Hxin).
      split; [|split; assumption].
      apply in_in_remove; [exact Hne | apply nodup_In, Hx].
Qed.

Lemma crawl_links_witness :
  exists c l,
    crawl words (Ok sample_directory) = Ok c /\
    getitem c "1.html"%string = Ok (PySet l) /\
    NoDup l /\
    forall x,
      In x l <->
      In x (words "2.html 3.html 1.html 2.html") /\ x <> "1.html"%string /\
      is_html x = true /\ In x (map fst sample_directory).
Proof.
  apply crawl_links.
  - sample_nodup.
  - repeat (apply Forall_cons;
            [intros H; try discriminate H; eexists; reflexivity|]).
    apply Forall_nil.
  - simpl; auto.
  - reflexivity.
Defined.

(** Whatever the listing, what [crawl] returns is a well-formed graph
    of sets without repetition and without self-links, and [crawl]
    returns whenever the first loop does. *)
Lemma crawl_invariants (findall : string -> list string)
  (listing : list (string * file)) (pages : corpus) :
  for_in listing
    (fun entry pages =>
       let '(filename, f) := entry in
       if negb (is_html filename) then Ok pages
       else
         contents <- f ;;
         Ok (setitem pages filename
               (PySet (links_of findall filename contents))))
    []
  = Ok pages ->
  exists c,
    crawl findall (Ok listing) = Ok c /\
    Graph_wf c /\
    forall page v,
      getitem c page = Ok v ->
      exists l, v = PySet l /\ NoDup l /\ ~ In page l.
Proof.
  intros Hrun.
  assert (Hinv : NoDup (keys pages) /\
                 forall kv, In kv pages ->
                   exists l, snd kv = PySet l /\ ~ In (fst kv) l).
  { refine (for_in_preserves
              (fun pages : corpus =>
                 NoDup (keys pages) /\
                 forall kv, In kv pages ->
                   exists l, snd kv = PySet l /\ ~ In (fst kv) l)
              listing _ [] pages _ _ Hrun).
    - split; [constructor | intros kv []].
    - intros [filename f] s s' (Hnd & Hself); simpl.
      destruct (negb (is_html filename)).
      + intros H; inversion H; subst; split; assumption.
      + destruct f as [contents|e]; simpl; [|discriminate].
        intros H; inversion H; subst; clear H.
        split; [apply NoDup_keys_setitem, Hnd|].
        intros kv Hkv; apply In_setitem in Hkv; destruct Hkv as [->|Hkv];
          [|apply Hself, Hkv].
        eexists; split; [reflexivity|]; simpl.
        unfold links_of; apply remove_In. }
  destruct Hinv as (Hnd & Hself).
  unfold crawl; cbn [bind]; rewrite Hrun; cbn [bind].
  rewrite (crawl_keep_spec pages Hnd).
  eexists; split; [reflexivity|]; split; [split|].
  - rewrite keys_keep_links; exact Hnd.
  - apply Forall_forall; intros kv Hkv.
    apply in_map_iff in Hkv; destruct Hkv as ([k v] & <- & _).
    unfold links_ok; rewrite keys_keep_links.
    unfold keep_links, links_in_corpus; simpl; intros x Hx.
    apply nodup_In, filter_In in Hx; apply mem_In, Hx.
  - intros page v Hget; apply getitem_Ok_In_pair in Hget.
    apply in_map_iff in Hget; destruct Hget as ([k v0] & E & Hin).
    unfold keep_links in E; simpl in E; inversion E; subst; clear E.
    eexists; split; [reflexivity|]; split; [apply NoDup_nodup|].
    destruct (Hself (page, v0) Hin) as (l & Hv0 & Hnot); simpl in *.
    subst v0; unfold links_in_corpus; simpl.
    intros Hx; apply nodup_In, filter_In in Hx; apply Hnot, Hx.
Qed.


(** X16. Whatever the directory, [crawl] raises exactly what
    [os.listdir] raises or, failing that, what the first [.html] entry
    that cannot be read raises: it raises nothing of its own. When it
    returns, which it does as soon as every [.html] entry can be read,
    the graph has distinct keys, every link is a page of the graph,
    every value is a set without repetition, and no page links to
    itself. *)
Theorem crawl_graph_invariants (findall : string -> list string)
  (directory : result (list (string * file))) :
  (forall e,
      crawl findall directory = Raise e <->
      directory = Raise e \/
      exists done filename rest,
        directory = Ok (done ++ (filename, Raise e) :: rest) /\
        is_html filename = true /\
        Forall readable_html done) /\
  (forall listing,
      directory = Ok listing -> Forall readable_html listing ->
      exists c, crawl findall directory = Ok c) /\
  (forall c,
      crawl findall directory = Ok c ->
      Graph_wf c /\
      forall page v,
        getitem c page = Ok v ->
        exists l, v = PySet l /\ NoDup l /\ ~ In page l).
Proof.
  destruct directory as [listing|e0].
  - pose proof (crawl_read_raises findall listing []) as Hread.
    destruct (html_files listing) as [files|e1] eqn:Hfiles.
    + destruct Hread as (pages & Hrun).
      destruct (crawl_invariants findall listing pages Hrun)
        as (c & Hc & Hwf & Hsets).
      split; [|split].
      * intros e; rewrite Hc; split; [discriminate|].
        intros [H|(done & filename & rest & H & Hh & Hr)]; [discriminate|].
        inversion H; subst listing.
        assert (Hraise : html_files (done ++ (filename, Raise e) :: rest)
                         = Raise e).
        { apply html_files_raise; exists done, filename, rest; auto. }
        congruence.
      * intros listing' _ _; exists c; exact Hc.
      * intros c' Hc'; rewrite Hc in Hc'; inversion Hc'; subst c'.
        split; [exact Hwf | exact Hsets].
    + assert (Hc : crawl findall (Ok listing) = Raise e1).
      { unfold crawl; cbn [bind]; rewrite Hread; reflexivity. }
      split; [|split].
      * intros e; rewrite Hc; split.
        -- intros H; inversion H; subst e1; right.
           apply html_files_raise in Hfiles.
           destruct Hfiles as (done & filename & rest & -> & Hh & Hr).
           exists done, filename, rest; auto.
        -- intros [H|(done & filename & rest & H & Hh & Hr)]; [discriminate|].
           inversion H; subst listing.
           assert (Hraise : html_files (done ++ (filename, Raise e) :: rest)
                            = Raise e).
           { apply html_files_raise; exists done, filename, rest; auto. }
           congruence.
      * intros listing' H Hr; inversion H; subst listing'.
        destruct (html_files_readable listing Hr) as (files & Hf).
        congruence.
      * intros c; rewrite Hc; discriminate.
  - split; [|split].
    + intros e; simpl; split.
      * intros H; left; inversion H; reflexivity.
      * intros [H|(done & filename & rest & H & _)]; [|discriminate].
        inversion H; reflexivity.
    + intros listing H; discriminate.
    + intros c; simpl; discriminate.
Qed.

Lemma crawl_graph_invariants_witness :
  crawl words (Ok sample_directory_unreadable) = Raise OSError.
Proof.
  apply (proj1 (crawl_graph_invariants words (Ok sample_directory_unreadable))).
  right.
  exists [("1.html"%string, Ok "2.html archive.html"%string);
          ("logo.png"%string, Raise UnicodeDecodeError)],
    "archive.html"%string, [("2.html"%string, Ok "1.html"%string)].
  split; [reflexivity|]; split; [reflexivity|].
  repeat (apply Forall_cons;
          [intros H; try discriminate H; eexists; reflexivity|]).
  apply Forall_nil.
Defined.

(** * [main] *)





(** The loop either has not ended when the fuel is spent, or returns
    ranks for the keys of the graph: no pass raises. *)
Lemma while_true_total (algConst d : Q) (fuel : nat) :
  forall (c : corpus) (pr : dict Q),
    NoDup (keys c) -> keys pr = keys c ->
    while_true fuel algConst d c pr = None \/
    exists c' pr',
      while_true fuel algConst d c pr = Some (Ok (c', pr')) /\
      keys pr' = keys c.
Proof.
  induction fuel as [|fuel IH]; intros c pr Hnd Hpr; [left; reflexivity|].
  destruct (one_pass_spec c pr algConst d Hnd Hpr) as (pr1 & Hpass & Hk1 & _).
  destruct (max_change_of_spec pr pr1) as (m & Hm & _); [congruence|].
  destruct (ltb m threshold) eqn:E.
  - right; exists (neutralise c), pr1; split; [|exact Hk1].
    apply (while_true_break fuel algConst d c _ pr pr1 m Hpass Hm E).
  - rewrite (while_true_step fuel algConst d c _ pr pr1 m Hpass Hm E).
    destruct (IH (neutralise c) pr1) as [H|(c' & pr' & H & Hk)].
    + rewrite keys_neutralise; exact Hnd.
    + rewrite keys_neutralise; exact Hk1.
    + left; exact H.
    + right; exists c', pr'; split; [exact H|].
      rewrite Hk; apply keys_neutralise.
Qed.

Lemma iterate_pagerank_total (fuel : nat) (c : corpus) (d : Q) :
  NoDup (keys c) -> c <> [] ->
  iterate_pagerank fuel c d = None \/
  exists c' pr,
    iterate_pagerank fuel c d = Some (Ok (c', pr)) /\ keys pr = keys c.
Proof.
  intros Hnd Hne.
  destruct (iterate_init_ok c d Hnd Hne) as (x & a & Hinit & _).
  unfold iterate_pagerank; rewrite Hinit.
  apply (while_true_total a d fuel c _ Hnd (keys_const x (keys c))).
Qed.




(** * The walk follows the distribution *)

Lemma for_in_preserves_at {A S : Type} (P : list A -> S -> Prop)
  (xs : list A) (body : A -> S -> result S) (s0 s1 : S) :
  P [] s0 ->
  (forall done x rest s s',
      xs = done ++ x :: rest -> P done s -> body x s = Ok s' ->
      P (done ++ [x]) s') ->
  for_in xs body s0 = Ok s1 -> P xs s1.
Proof.
  intros H0 Hstep.
  assert (G : forall rest done s,
             xs = done ++ rest -> P done s ->
             for_in rest body s = Ok s1 -> P xs s1).
  { induction rest as [|x rest IH]; intros done s E HP; simpl.
    - intros H; inversion H; subst s1.
      rewrite app_nil_r in E; subst done; exact HP.
    - destruct (body x s) as [s'|e] eqn:Eb; simpl; [|discriminate].
      apply (IH (done ++ [x])).
      + rewrite <- app_assoc; exact E.
      + apply (Hstep done x rest s s' E HP Eb). }
  apply (G xs [] s0 eq_refl H0).
Qed.

Lemma searchsorted_positive (p : list Q) :
  forall acc u,
    Forall (fun x => 0 <= x) p ->
    acc <= u ->
    (searchsorted p acc u < List.length p)%nat ->
    0 < nth (searchsorted p acc u) p 0.
Proof.
  induction p as [|x p IH]; intros acc u Hpos Hacc Hlt; simpl in *; [lia|].
  inversion Hpos as [|? ? Hx Hp]; subst.
  destruct (Qle_bool (acc + x) u) eqn:E.
  - apply Qle_bool_iff in E; apply IH; [exact Hp | exact E | lia].
  - assert (Hu : u < acc + x).
    { apply Qnot_le_lt; intros H; apply Qle_bool_iff in H; congruence. }
    apply (Qplus_lt_r _ _ acc); rewrite Qplus_0_r.
    apply Qle_lt_trans with u; assumption.
Qed.

(** [numpy.random.choice] never returns an outcome of weight zero. *)
Lemma numpy_choice_support u (a : list string) (p : list Q) x :
  numpy_choice u a p = Ok x ->
  exists i, nth_error a i = Some x /\ 0 < nth i p 0.
Proof.
  unfold numpy_choice.
  destruct (Nat.eqb (List.length a) 0); [discriminate|].
  destruct (Nat.eqb (List.length a) (List.length p)) eqn:El; [|discriminate].
  destruct (existsb (fun y => ltb y 0) p) eqn:En; [discriminate|].
  destruct (Qeq_bool (sum p) 1); [|discriminate].
  simpl; unfold nth_or_IndexError.
  destruct (nth_error a (searchsorted p 0 (frac u))) as [y|] eqn:Ey;
    [|discriminate].
  intros H; inversion H; subst y.
  exists (searchsorted p 0 (frac u)); split; [exact Ey|].
  apply searchsorted_positive.
  - apply Forall_forall; intros y Hy.
    apply Qnot_lt_le; intros Hneg.
    assert (Hex : existsb (fun z => ltb z 0) p = true).
    { apply existsb_exists; exists y; split; [exact Hy | apply ltb_lt, Hneg]. }
    congruence.
  - apply frac_range.
  - apply Nat.eqb_eq in El; rewrite <- El.
    apply nth_error_Some; congruence.
Qed.

Lemma rank_of_nth (d : dict Q) :
  NoDup (keys d) ->
  forall i k, nth_error (keys d) i = Some k -> rank_of d k = nth i (values d) 0.
Proof.
  induction d as [|[k' v'] d IH]; intros Hnd i k Hi.
  - destruct i; discriminate.
  - simpl in Hnd; inversion Hnd as [|? ? Hk' Hnd']; subst.
    destruct i as [|i]; simpl in Hi.
    + inversion Hi; subst; unfold rank_of; simpl.
      rewrite String.eqb_refl; reflexivity.
    + unfold rank_of; simpl.
      destruct (String.eqb k k') eqn:E.
      * apply String.eqb_eq in E; subst k'.
        exfalso; apply Hk', (nth_error_In _ _ Hi).
      * apply (IH Hnd' i k Hi).
Qed.

Lemma transition_model_keys (c : corpus) page d p :
  NoDup (keys c) ->
  transition_model c page d = Ok p ->
  In page (keys c) /\ keys p = keys c.
Proof.
  intros Hnd Hp.
  destruct (getitem c page) as [lnk|e] eqn:Hget;
    [|unfold transition_model in Hp; rewrite Hget in Hp; discriminate].
  split; [apply (getitem_Ok_In _ _ _ Hget)|].
  rewrite (transition_model_unfold c page d lnk Hnd Hget) in Hp.
  destruct (Nat.eqb (links_len c lnk) 0).
  - inversion Hp; apply keys_const.
  - revert Hp; apply (for_in_preserves (fun p : dict Q => keys p = keys c));
      [apply keys_const|].
    intros link s s' Hs.
    destruct (getitem s link) as [old|e] eqn:Hold; simpl; [|discriminate].
    destruct (truediv d (of_nat (links_len c lnk))); simpl; [|discriminate].
    intros H; inversion H; subst s'.
    rewrite keys_setitem; [exact Hs | apply (getitem_Ok_In _ _ _ Hold)].
Qed.

Lemma nth_error_snoc {A : Type} (l : list A) (x : A) i y :
  nth_error (l ++ [x]) i = Some y ->
  (i < List.length l /\ nth_error l i = Some y)%nat \/
  (i = List.length l /\ y = x).
Proof.
  intros H; destruct (Nat.lt_ge_cases i (List.length l)) as [Hlt|Hge].
  - left; split; [exact Hlt|]; rewrite nth_error_app1 in H; assumption.
  - right; rewrite nth_error_app2 in H by exact Hge.
    destruct (i - List.length l)%nat as [|j] eqn:E; simpl in H.
    + inversion H; split; [lia | reflexivity].
    + destruct j; discriminate.
Qed.

(** X19. Whenever the sampling loop of [sample_pagerank] completes,
    every page of the visit record is a page of the graph, and each
    transition goes to a page to which [transition_model] gives a
    positive probability from the page before it: a page of weight zero
    is never visited next. *)
Theorem sample_walk_follows_distribution (U : nat -> Q) (c : corpus)
  (d : num) (n : Z) (samples : list string) :
  NoDup (keys c) ->
  sample_walk U c d n = Ok samples ->
  Forall (fun page => In page (keys c)) samples /\
  forall i cur next,
    nth_error samples i = Some cur ->
    nth_error samples (S i) = Some next ->
    exists p, transition_model c cur d = Ok p /\ 0 < rank_of p next.
Proof.
  intros Hnd; unfold sample_walk.
  destruct (random_choice (U 0%nat) (keys c)) as [first|e] eqn:Hf; simpl;
    [|discriminate].
  assert (Hfirst : In first (keys c)).
  { unfold random_choice, nth_or_IndexError in Hf.
    destruct (nth_error (keys c) _) eqn:E; [|discriminate].
    inversion Hf; subst; apply (nth_error_In _ _ E). }
  intros Hrun.
  apply (for_in_preserves_at
           (fun (done : list nat) (samples : list string) =>
              List.length samples = S (List.length done) /\
              Forall (fun page => In page (keys c)) samples /\
              forall i cur next,
                nth_error samples i = Some cur ->
                nth_error samples (S i) = Some next ->
                exists p, transition_model c cur d = Ok p /\ 0 < rank_of p next)
           _ _ _ _) in Hrun.
  - destruct Hrun as (_ & Hall & Hstep); split; assumption.
  - split; [reflexivity|]; split; [repeat constructor; exact Hfirst|].
    intros [|i] cur next Hi Hn; simpl in Hn; [discriminate|].
    destruct i; discriminate.
  - intros done i rest s s' E (Hl & Hall & Hpairs) Hbody.
    apply seq_split_index in E; subst i.
    destruct (nth_or_IndexError s (List.length done)) as [cur|e] eqn:Hc;
      simpl in Hbody; [|discriminate].
    destruct (transition_model c cur d) as [p|e] eqn:Hp; simpl in Hbody;
      [|discriminate].
    destruct (numpy_choice (U (S (List.length done))) (keys p) (values p))
      as [nxt|e] eqn:Hn; simpl in Hbody; [|discriminate].
    inversion Hbody; subst s'; clear Hbody.
    destruct (transition_model_keys c cur d p Hnd Hp) as (_ & Hkp).
    destruct (numpy_choice_support _ _ _ _ Hn) as (j & Hj & Hpos).
    assert (Hrank : 0 < rank_of p nxt).
    { rewrite (rank_of_nth p) with (i := j); [exact Hpos | | exact Hj].
      rewrite Hkp; exact Hnd. }
    split; [rewrite !length_app; simpl; lia|]; split.
    + apply Forall_app; split; [exact Hall|].
      repeat constructor; rewrite <- Hkp; apply (nth_error_In _ _ Hj).
    + intros i cur' next Hi Hnext.
      apply nth_error_snoc in Hnext.
      destruct Hnext as [[Hlt Hnext]|[Hlen ->]].
      * apply (Hpairs i cur' next); [|exact Hnext].
        rewrite nth_error_app1 in Hi by lia; exact Hi.
      * rewrite nth_error_app1 in Hi by lia.
        assert (Hi' : i = List.length done) by lia; subst i.
        unfold nth_or_IndexError in Hc; rewrite Hi in Hc.
        inversion Hc; subst cur'.
        exists p; split; assumption.
Qed.

Lemma sample_walk_follows_distribution_witness :
  Forall (fun page => In page (keys corpus_tail))
    ["A"%string; "B"%string; "A"%string] /\
  forall i cur next,
    nth_error ["A"%string; "B"%string; "A"%string] i = Some cur ->
    nth_error ["A"%string; "B"%string; "A"%string] (S i) = Some next ->
    exists p, transition_model corpus_tail cur (17 # 20) = Ok p /\
              0 < rank_of p next.
Proof.
  apply (sample_walk_follows_distribution variates corpus_tail (17 # 20) 2).
  - sample_nodup.
  - vm_compute; reflexivity.
Defined.

(** * Further invariants *)

(** X20. For two rank vectors over the same, non-empty set of pages, the
    loop that ends a pass of [iterate_pagerank] computes the maximum
    absolute per-page change: no page moved by more than [max_change],
    and some page moved by exactly that much. *)
Theorem max_change_of_is_maximum (prevRank pageRank : dict num) :
  keys prevRank = keys pageRank ->
  pageRank <> [] ->
  exists max_change,
    max_change_of prevRank pageRank = Ok max_change /\
    (forall page, In page (keys pageRank) ->
       Qabs (rank_of prevRank page - rank_of pageRank page) <= max_change) /\
    exists page,
      In page (keys pageRank) /\
      max_change == Qabs (rank_of prevRank page - rank_of pageRank page).
Proof.
  intros Hk Hne.
  destruct (max_change_of_spec prevRank pageRank Hk) as (m & Hm & Hall & Hex).
  exists m; split; [exact Hm|]; split; [exact Hall | exact (Hex Hne)].
Qed.

Lemma max_change_of_is_maximum_witness :
  exists max_change,
    max_change_of [("A"%string, 1 # 3); ("B"%string, 1 # 3)]
      [("A"%string, 1 # 2); ("B"%string, 1 # 4)]
    = Ok max_change /\
    (forall page,
        In page (keys [("A"%string, 1 # 2); ("B"%string, 1 # 4)]) ->
        Qabs (rank_of [("A"%string, 1 # 3); ("B"%string, 1 # 3)] page
              - rank_of [("A"%string, 1 # 2); ("B"%string, 1 # 4)] page)
        <= max_change) /\
    exists page,
      In page (keys [("A"%string, 1 # 2); ("B"%string, 1 # 4)]) /\
      max_change
      == Qabs (rank_of [("A"%string, 1 # 3); ("B"%string, 1 # 3)] page
               - rank_of [("A"%string, 1 # 2); ("B"%string, 1 # 4)] page).
Proof.
  apply max_change_of_is_maximum; [reflexivity | discriminate].
Defined.

(** X21. On a non-empty graph [iterate_pagerank] raises nothing,
    whatever the damping factor and whatever the links, even links to
    pages outside the graph: either its loop is still running when the
    fuel is spent, or it returns. *)
Theorem iterate_pagerank_never_raises (fuel : nat) (c : corpus) (d : num) :
  NoDup (keys c) ->
  c <> [] ->
  iterate_pagerank fuel c d = None \/
  exists c' pageRank, iterate_pagerank fuel c d = Some (Ok (c', pageRank)).
Proof.
  intros Hnd Hne.
  destruct (iterate_pagerank_total fuel c d Hnd Hne) as [H|(c' & pr & H & _)].
  - left; exact H.
  - right; exists c', pr; exact H.
Qed.

Lemma iterate_pagerank_never_raises_witness :
  iterate_pagerank 3
    [("A"%string, PySet ["B"%string; "Z"%string]); ("B"%string, PySet [])]
    (17 # 20) = None \/
  exists c' pageRank,
    iterate_pagerank 3
      [("A"%string, PySet ["B"%string; "Z"%string]); ("B"%string, PySet [])]
      (17 # 20) = Some (Ok (c', pageRank)).
Proof.
  apply iterate_pagerank_never_raises; [sample_nodup | discriminate].
Defined.

(** X22. Whenever [transition_model] returns, the current page is a
    page of the graph and the distribution has exactly the graph's
    keys, in the graph's order. *)
Theorem transition_model_covers_graph (c : corpus) (page : string) (d : num)
  (p : dict num) :
  NoDup (keys c) ->
  transition_model c page d = Ok p ->
  In page (keys c) /\ keys p = keys c.
Proof.
  intros Hnd Hp.
  destruct (transition_model_keys c page d p Hnd Hp) as (Hin & Hk).
  split; assumption.
Qed.

Lemma transition_model_covers_graph_witness :
  In "A"%string (keys corpus_dangling) /\
  keys [("A"%string, 3 # 40); ("B"%string, 37 # 40)] = keys corpus_dangling.
Proof.
  apply (transition_model_covers_graph corpus_dangling "A"%string (17 # 20)).
  - sample_nodup.
  - vm_compute; reflexivity.
Defined.

(** * Termination of [iterate_pagerank] *)

(** ** Sums *)







(** ** The incoming sum is linear in the rank vector *)










(** ** Every in-place update lowers the potential *)







(** ** A sweep over the pages *)






(** ** The pass of the code is a sweep over the keys *)




(** ** The number of passes *)




(** ** The potential of the start vector *)





(** ** The end of the loop *)


(** ** Claim about the end of the loop *)



(** * The loop of [iterate_pagerank] in binary64 *)

Lemma binary64_while_true_step fuel (algConst d : Binary64.float)
  (c c' : corpus) (pr pr' : dict Binary64.float) (m : Binary64.float) :
  Binary64.one_pass algConst d (c, pr) = Ok (c', pr') ->
  Binary64.max_change_of pr pr' = Ok m ->
  PrimFloat.ltb m Binary64.threshold = false ->
  Binary64.while_true (S fuel) algConst d c pr
  = Binary64.while_true fuel algConst d c' pr'.
Proof.
  intros Hp Hm Hlt; cbn [Binary64.while_true]; rewrite Hp, Hm, Hlt.
  reflexivity.
Qed.

(** With the damping factor [below_one] the ranks of [corpus_cycle]
    alternate in binary64 between two vectors that differ by 1/4: the
    teleport share [2^-55] is lost in the rounding of every update. *)
Lemma binary64_cycle_alternates (fuel : nat) :
  Binary64.while_true fuel Binary64.tiny
    Binary64.below_one corpus_cycle Binary64.cycle_low = None /\
  Binary64.while_true fuel Binary64.tiny
    Binary64.below_one corpus_cycle Binary64.cycle_high = None.
Proof.
  induction fuel as [|fuel [IHlow IHhigh]]; [split; reflexivity|].
  split.
  - rewrite (binary64_while_true_step fuel _ _ corpus_cycle corpus_cycle
               Binary64.cycle_low Binary64.cycle_high
               Binary64.quarter);
      [exact IHhigh | vm_compute; reflexivity ..].
  - rewrite (binary64_while_true_step fuel _ _ corpus_cycle corpus_cycle
               Binary64.cycle_high Binary64.cycle_low
               Binary64.quarter);
      [exact IHlow | vm_compute; reflexivity ..].
Qed.

(** In binary64 the loop can run for ever with a damping factor below 1:
    on [corpus_cycle], with the largest binary64 number below 1, the
    change of every pass is 1/4 and no amount of fuel lets
    [iterate_pagerank] return. *)
Theorem binary64_iterate_pagerank_never_returns :
  Graph_wf corpus_cycle /\
  PrimFloat.ltb Binary64.below_one Binary64.one = true /\
  Binary64.value Binary64.below_one
  = Some (9007199254740991 # 9007199254740992) /\
  forall fuel,
    Binary64.iterate_pagerank fuel corpus_cycle Binary64.below_one = None.
Proof.
  split; [sample_wf|].
  split; [vm_compute; reflexivity|].
  split; [vm_compute; reflexivity|].
  intros fuel; unfold Binary64.iterate_pagerank.
  replace (Binary64.iterate_init corpus_cycle Binary64.below_one)
    with (@Ok (dict Binary64.float * Binary64.float)
            ([("C"%string, Binary64.quarter);
              ("B"%string, Binary64.quarter);
              ("A"%string, Binary64.quarter);
              ("D"%string, Binary64.quarter)],
             Binary64.tiny))
    by (vm_compute; reflexivity).
  destruct fuel as [|[|fuel]]; [reflexivity| |].
  - erewrite binary64_while_true_step;
      [reflexivity | vm_compute; reflexivity ..].
  - erewrite binary64_while_true_step; [| vm_compute; reflexivity ..].
    erewrite binary64_while_true_step; [| vm_compute; reflexivity ..].
    apply (binary64_cycle_alternates fuel).
Qed.

(** * [transition_model] in binary64 *)

(** In binary64 the rewriting of dangling pages does change what
    [transition_model] returns for a dangling page: on [corpus_five],
    with the damping factor 0.85, page B gives every page 1/5 rounded,
    which prints as 0.2, before the rewriting, and the rounded sum of
    0.15/5 and 0.85/5, the number just below, after it. *)
Theorem binary64_transition_model_after_rewriting :
  Graph_wf corpus_five /\
  getitem corpus_five "B"%string = Ok (PySet []) /\
  Binary64.transition_model corpus_five "B"%string Binary64.DAMPING
  = Ok (map (fun q => (q, Binary64.fifth)) (keys corpus_five)) /\
  Binary64.transition_model (neutralise corpus_five) "B"%string
    Binary64.DAMPING
  = Ok (map (fun q => (q, Binary64.below_fifth)) (keys corpus_five)) /\
  PrimFloat.ltb Binary64.below_fifth Binary64.fifth = true.
Proof.
  split; [sample_wf|].
  split; [reflexivity|].
  split; [vm_compute; reflexivity|].
  split; vm_compute; reflexivity.
Qed.

(** * Runs of [main] *)

(** X17. Called with one argument naming a directory without [.html]
    files, [main] prints nothing and ends with the uncaught
    [IndexError] of [random.choice] in [sample_pagerank]; no entry of
    the directory is opened. *)
Theorem main_without_pages (findall : string -> list string)
  (read_directory : string -> result (list (string * file)))
  (format_4f : num -> string) (prog path : string) (U : nat -> Q)
  (fuel : nat) (listing : list (string * file)) :
  read_directory path = Ok listing ->
  NoDup (map fst listing) ->
  filter is_html (map fst listing) = [] ->
  main findall read_directory format_4f [prog; path] U fuel
  = Uncaught IndexError [].
Proof.
  intros Hdir Hnd Hnone.
  destruct (crawl_on_listing findall listing [] Hnd
              (html_files_none listing Hnone)) as (Hc & _).
  unfold main; cbn [List.length Nat.eqb negb nth_or_IndexError nth_error].
  rewrite Hdir, Hc.
  cbn [map]; unfold sample_pagerank, sample_walk; cbn [keys map].
  rewrite random_choice_empty; reflexivity.
Qed.

Lemma main_without_pages_witness :
  main words
    (fun _ => Ok [("notes.txt"%string, Ok "1.html"%string);
                  ("logo.png"%string, Raise UnicodeDecodeError)])
    (fun _ => ""%string) ["pagerank.py"%string; "corpus"%string] variates 5
  = Uncaught IndexError [].
Proof.
  apply (main_without_pages words
           (fun _ => Ok [("notes.txt"%string, Ok "1.html"%string);
                         ("logo.png"%string, Raise UnicodeDecodeError)])
           (fun _ => ""%string) "pagerank.py" "corpus" variates 5
           [("notes.txt"%string, Ok "1.html"%string);
            ("logo.png"%string, Raise UnicodeDecodeError)]).
  - reflexivity.
  - sample_nodup.
  - reflexivity.
Defined.


